(** * A shallow embedding of the periodic job scheduler (src/main.py)

    The development follows the Python module class by class: the
    exceptions, the [Job] builder with its next-run computation, and the
    [Scheduler] registry with its polling operations.  Python objects are
    mutable, so every method is a computation over the state of [self];
    exceptions are results of its own kind, and a method that raises keeps
    whatever it had already written to [self].  The functions at the end
    of the module ([every], [run_pending], [run_all], [next_run],
    [idle_seconds]) only forward to the methods of [default_scheduler], the
    scheduler that the process shares. *)

From Stdlib Require Import ZArith Lia Bool Ascii String.
From stdpp Require Import base list sorting.

Open Scope Z_scope.

(** ** Instants and durations

    A naive [datetime] is the number of microseconds since
    0001-01-01T00:00:00, a [timedelta] a signed number of microseconds. *)

Module Datetime.

Definition SECOND : Z := 1000000.
Definition MINUTE : Z := 60 * SECOND.
Definition HOUR : Z := 60 * MINUTE.
Definition DAY : Z := 24 * HOUR.
Definition WEEK : Z := 7 * DAY.

(** [date.max.toordinal()] is 3652059: [datetime.max] is the last
    microsecond of 9999-12-31. *)
Definition MAX : Z := 3652059 * DAY.

Definition valid (t : Z) : Prop := 0 <= t < MAX.
Definition validb (t : Z) : bool := (0 <=? t) && (t <? MAX).

(** [timedelta.min] and [timedelta.max]. *)
Definition delta_validb (d : Z) : bool :=
  (-999999999 * DAY <=? d) && (d <? 1000000000 * DAY).

(** The clock fields of an instant. *)
Definition hour (t : Z) : Z := (t / HOUR) mod 24.
Definition minute (t : Z) : Z := (t / MINUTE) mod 60.
Definition second (t : Z) : Z := (t / SECOND) mod 60.
Definition microsecond (t : Z) : Z := t mod SECOND.

(** [datetime.time()]: the time of day, as microseconds since midnight. *)
Definition time_of_day (t : Z) : Z := t mod DAY.

(** The start of the hour an instant lies in. *)
Definition hour_floor (t : Z) : Z := t / HOUR * HOUR.

End Datetime.

(** [datetime.time(hour=h, minute=m)]: seconds and microseconds are 0. *)
Record Time := mkTime { t_hour : Z; t_minute : Z }.

Definition time_us (a : Time) : Z :=
  t_hour a * Datetime.HOUR + t_minute a * Datetime.MINUTE.

(** ** Exceptions *)

(** Modelled from the spec: the module [utils.base_errors] is not among the
    sources.  Its messages are kept as tags named after the attributes the
    code reads; the spec lists them as the interval mismatch, the unset unit
    or misplaced anchor time, the hour out of range and the minute out of
    range. *)
Inductive base_errors : Type :=
| interval_error (accessor : string)
| scheduler_value_error
| hour_wrong
| minute_wrong.

(** The exceptions of main.py ([IntervalError], [SchedulerValueError]), the
    built-in ones its statements can raise, and whatever a job's action
    raises, kept apart from the others by its constructor.
    The last two are no Python exceptions.  [InvalidReference] stands for a
    job handle that names no registered job, which the handles returned by
    [every] never are; [Unmodelled] marks a library call outside this
    model: [replace] with a date keyword, which the program never passes,
    and [sleep] with a delay so long that its outcome depends on how long
    the machine has been running. *)
Inductive Exn : Type :=
| IntervalError (msg : base_errors)
| SchedulerValueError (msg : base_errors)
| TypeError
| ValueError
| OverflowError
| ActionError (payload : Z)
| InvalidReference
| Unmodelled.

Inductive Res (A : Type) : Type :=
| Ok (a : A)
| Raise (e : Exn).
Arguments Ok {A} a.
Arguments Raise {A} e.

Definition res_bind {A B} (r : Res A) (k : A -> Res B) : Res B :=
  match r with
  | Ok a => k a
  | Raise e => Raise e
  end.

Notation "'let+' x := m 'in' k" := (res_bind m (fun x => k))
  (at level 10, x name, m at level 200, k at level 200).

(** ** The clock

    Every call of [datetime.now()] is one reading of the clock: the [n]-th
    call made since the start returns [readings n]. *)
Record Clock := mkClock { readings : nat -> Z; ticks : nat }.

Definition read (c : Clock) : Z := readings c (ticks c).
Definition advance (c : Clock) : Clock :=
  {| readings := readings c; ticks := S (ticks c) |}.

(** A clock that never goes back. *)
Definition monotone (c : Clock) : Prop :=
  forall i j : nat, (i <= j)%nat -> readings c i <= readings c j.

(** A stopped clock, as a test would inject it. *)
Definition frozen (now : Z) : Clock := {| readings := fun _ => now; ticks := 0 |}.

(** ** Computations over an object

    A method of an object whose state has type [S] reads the clock, changes
    the object, and returns or raises. *)
Definition M (S A : Type) : Type := S -> Clock -> Res A * S * Clock.

Definition ret {S A} (a : A) : M S A := fun s c => (Ok a, s, c).
Definition raise {S A} (e : Exn) : M S A := fun s c => (Raise e, s, c).
Definition bind {S A B} (m : M S A) (k : A -> M S B) : M S B :=
  fun s c =>
    match m s c with
    | (Ok a, s', c') => k a s' c'
    | (Raise e, s', c') => (Raise e, s', c')
    end.
Definition get {S} : M S S := fun s c => (Ok s, s, c).
Definition modify {S} (f : S -> S) : M S unit := fun s c => (Ok tt, f s, c).
Definition lift {S A} (r : Res A) : M S A := fun s c => (r, s, c).

(** [datetime.now()]. *)
Definition now {S} : M S Z := fun s c => (Ok (read c), s, advance c).

Notation "'let*' x := m 'in' k" := (bind m (fun x => k))
  (at level 10, x name, m at level 200, k at level 200).

(** [datetime + timedelta] and [datetime - timedelta] raise [OverflowError]
    outside the years 1 to 9999. *)
Definition dt_add (t d : Z) : Res Z :=
  if Datetime.validb (t + d) then Ok (t + d) else Raise OverflowError.
Definition dt_sub (t d : Z) : Res Z :=
  if Datetime.validb (t - d) then Ok (t - d) else Raise OverflowError.

(** ** Units *)

Inductive Unit : Type := Seconds | Minutes | Hours | Days | Weeks.

(** The string that [self.unit] holds, which is also the keyword of
    [timedelta]. *)
Definition unit_name (u : Unit) : string :=
  match u with
  | Seconds => "seconds"
  | Minutes => "minutes"
  | Hours => "hours"
  | Days => "days"
  | Weeks => "weeks"
  end.

Definition unit_duration (u : Unit) : Z :=
  match u with
  | Seconds => Datetime.SECOND
  | Minutes => Datetime.MINUTE
  | Hours => Datetime.HOUR
  | Days => Datetime.DAY
  | Weeks => Datetime.WEEK
  end.

Definition Unit_eqb (u v : Unit) : bool :=
  match u, v with
  | Seconds, Seconds | Minutes, Minutes | Hours, Hours
  | Days, Days | Weeks, Weeks => true
  | _, _ => false
  end.

(** The [timedelta] built with the unit's name as its keyword and the
    [int] interval as its value. *)
Definition timedelta (u : Unit) (n : Z) : Res Z :=
  let d := n * unit_duration u in
  if Datetime.delta_validb d then Ok d else Raise OverflowError.

(** ** Library functions the program calls *)

Module Py.

(** *** [str.split] for a separator of one character *)
Fixpoint split (sep : ascii) (s : string) : list string :=
  match s with
  | EmptyString => [EmptyString]
  | String c r =>
      if Ascii.eqb c sep then EmptyString :: split sep r
      else match split sep r with
           | hd :: tl => String c hd :: tl
           | [] => [String c EmptyString]
           end
  end.

(** Whether a character occurs in a string. *)
Fixpoint contains (ch : ascii) (s : string) : bool :=
  match s with
  | EmptyString => false
  | String x r => Ascii.eqb x ch || contains ch r
  end.

(** *** [int(str)] in base 10

    Blanks around the number are skipped, one sign is allowed, single
    underscores may separate digits, and a number of more than 4300
    digits is refused, which is the limit the interpreter starts with
    ([sys.int_info.default_max_str_digits]).  A character of a string is
    a code point below 256.  The blanks that [int] skips are the tab,
    the line feed, the vertical tab, the form feed, the carriage return
    and the space, and above 127 the next-line character and the
    no-break space; the separators 28 to 31 are not among them.  Digits
    and blanks from 256 on, which [int] accepts too, are no characters
    of these strings: the statements about parsed text ask for ASCII
    text. *)
Definition is_space (c : ascii) : bool :=
  let n := nat_of_ascii c in
  ((9 <=? n) && (n <=? 13) || (n =? 32) || (n =? 133) || (n =? 160))%nat.

Definition digit_of (c : ascii) : option Z :=
  let n := nat_of_ascii c in
  if ((48 <=? n) && (n <=? 57))%nat then Some (Z.of_nat n - 48) else None.

Fixpoint lstrip (l : list ascii) : list ascii :=
  match l with
  | c :: r => if is_space c then lstrip r else l
  | [] => []
  end.

Definition strip (l : list ascii) : list ascii :=
  rev (lstrip (rev (lstrip l))).

Fixpoint digits (acc : Z) (after_digit : bool) (l : list ascii) : option Z :=
  match l with
  | [] => if after_digit then Some acc else None
  | c :: r =>
      match digit_of c with
      | Some d => digits (10 * acc + d) true r
      | None =>
          if Ascii.eqb c "_" && after_digit then digits acc false r
          else None
      end
  end.

Definition max_str_digits : Z := 4300.

Fixpoint count_digits (l : list ascii) : Z :=
  match l with
  | [] => 0
  | c :: r =>
      match digit_of c with
      | Some _ => 1 + count_digits r
      | None => count_digits r
      end
  end.

Definition int (s : string) : Res Z :=
  let parsed :=
    match strip (list_ascii_of_string s) with
    | c :: r =>
        if Ascii.eqb c "-" then option_map Z.opp (digits 0 false r)
        else if Ascii.eqb c "+" then digits 0 false r
        else digits 0 false (c :: r)
    | [] => None
    end in
  match parsed with
  | Some n =>
      if max_str_digits <? count_digits (list_ascii_of_string s)
      then Raise ValueError else Ok n
  | None => Raise ValueError
  end.

(** *** [datetime.time(hour=h, minute=m)] *)
Definition time (h m : Z) : Res Time :=
  if (0 <=? h) && (h <=? 23) && (0 <=? m) && (m <=? 59)
  then Ok (mkTime h m) else Raise ValueError.

(** *** [datetime.replace] with a dictionary of keyword arguments

    The keywords are checked against the parameters of [replace] before
    any field changes.  The clock fields are rewritten in place; the
    date keywords, [tzinfo] and [fold] are parameters of [replace] too,
    but need a calendar and are never passed by this program. *)
Definition replace_clock_keywords : list string :=
  ["hour"; "minute"; "second"; "microsecond"]%string.
Definition replace_other_keywords : list string :=
  ["year"; "month"; "day"; "tzinfo"; "fold"]%string.

Definition mem (k : string) (l : list string) : bool :=
  existsb (String.eqb k) l.

Definition replace_field (t : Z) (kw : string * Z) : Res Z :=
  let (k, v) := kw in
  if String.eqb k "hour" then
    if (0 <=? v) && (v <=? 23)
    then Ok (t - Datetime.hour t * Datetime.HOUR + v * Datetime.HOUR)
    else Raise ValueError
  else if String.eqb k "minute" then
    if (0 <=? v) && (v <=? 59)
    then Ok (t - Datetime.minute t * Datetime.MINUTE + v * Datetime.MINUTE)
    else Raise ValueError
  else if String.eqb k "second" then
    if (0 <=? v) && (v <=? 59)
    then Ok (t - Datetime.second t * Datetime.SECOND + v * Datetime.SECOND)
    else Raise ValueError
  else if String.eqb k "microsecond" then
    if (0 <=? v) && (v <=? 999999)
    then Ok (t - Datetime.microsecond t + v)
    else Raise ValueError
  else Raise Unmodelled.

Fixpoint replace_fields (t : Z) (kwargs : list (string * Z)) : Res Z :=
  match kwargs with
  | [] => Ok t
  | kw :: rest => let+ t' := replace_field t kw in replace_fields t' rest
  end.

Definition replace (t : Z) (kwargs : list (string * Z)) : Res Z :=
  if forallb (fun kw => mem (fst kw) (replace_clock_keywords ++ replace_other_keywords))
             kwargs
  then replace_fields t kwargs
  else Raise TypeError.

End Py.

(** *** [sorted] and [min] over objects compared with their own [__lt__]

    Both built-ins ask only [x < y], and a comparison that raises ends
    them.  [sorted] is CPython's list sort as it runs on fewer than 64
    elements: the run at the front is found by [count_run] and reversed
    when it descends, and [binarysort] inserts the rest one by one.  On 64
    elements and more CPython merges several runs built this way; the
    merging is not modelled. *)

Module Builtins.
Section Compare.

Context {A : Type} (lt : A -> A -> Res bool).

(** The length of the run that goes on after [prev]. *)
Fixpoint descending_run (prev : A) (l : list A) : Res nat :=
  match l with
  | [] => Ok 0%nat
  | x :: l' =>
      let+ b := lt x prev in
      if b then let+ n := descending_run x l' in Ok (S n) else Ok 0%nat
  end.

Fixpoint ascending_run (prev : A) (l : list A) : Res nat :=
  match l with
  | [] => Ok 0%nat
  | x :: l' =>
      let+ b := lt x prev in
      if b then Ok 0%nat else let+ n := ascending_run x l' in Ok (S n)
  end.

Definition count_run (l : list A) : Res (nat * bool) :=
  match l with
  | [] => Ok (0%nat, false)
  | [_] => Ok (1%nat, false)
  | x :: y :: l' =>
      let+ b := lt y x in
      if b then let+ n := descending_run y l' in Ok (S (S n), true)
      else let+ n := ascending_run y l' in Ok (S (S n), false)
  end.

(** The loop of [binarysort] that narrows [l, r) down to the place of
    [pivot] in the sorted prefix; [r - l] shrinks at every turn, and
    [fuel] starts at that difference. *)
Fixpoint bisect (fuel : nat) (sorted_prefix : list A) (pivot : A)
         (l r : nat) : Res nat :=
  match fuel with
  | O => Ok l
  | S fuel' =>
      if (l <? r)%nat then
        let p := (l + (r - l) / 2)%nat in
        match sorted_prefix !! p with
        | Some x =>
            let+ b := lt pivot x in
            if b then bisect fuel' sorted_prefix pivot l p
            else bisect fuel' sorted_prefix pivot (S p) r
        | None => Ok l
        end
      else Ok l
  end.

Fixpoint binarysort (sorted_prefix rest : list A) : Res (list A) :=
  match rest with
  | [] => Ok sorted_prefix
  | pivot :: rest' =>
      let n := length sorted_prefix in
      let+ pos := bisect n sorted_prefix pivot 0 n in
      binarysort (take pos sorted_prefix ++ pivot :: drop pos sorted_prefix)
                 rest'
  end.

Definition sorted (l : list A) : Res (list A) :=
  if (length l <? 2)%nat then Ok l
  else
    let+ run := count_run l in
    let (n, descending) := run in
    let front := if descending then rev (take n l) else take n l in
    binarysort front (drop n l).

(** [min] keeps the first item until a later one is less than it. *)
Fixpoint min_from (best : A) (l : list A) : Res A :=
  match l with
  | [] => Ok best
  | item :: l' =>
      let+ b := lt item best in
      min_from (if b then item else best) l'
  end.

(** [min] of an empty list raises [ValueError]. *)
Definition min (l : list A) : Res A :=
  match l with
  | [] => Raise ValueError
  | first :: l' => min_from first l'
  end.

End Compare.
End Builtins.

(** ** Jobs *)

(** What one call of a job's action does: it returns a value or raises. *)
Inductive Outcome : Type :=
| Returns (value : Z)
| Throws (payload : Z).

(** A job's action is opaque to the scheduler; what a call does may depend
    on when it is made, given here by the number of clock readings taken
    before it. *)
Definition Action : Type := nat -> Outcome.

Module Job.

Record t := mk {
  interval : Z;
  period : option Z;
  unit : option Unit;
  job_func : option Action;
  last_run : option Z;
  next_run : option Z;
  at_time : option Time
}.

Definition __init__ (interval : Z) : t :=
  {| interval := interval; period := None; unit := None; job_func := None;
     last_run := None; next_run := None; at_time := None |}.

Definition set_period (v : option Z) (self : t) : t :=
  {| interval := interval self; period := v; unit := unit self;
     job_func := job_func self; last_run := last_run self;
     next_run := next_run self; at_time := at_time self |}.
Definition set_unit (v : option Unit) (self : t) : t :=
  {| interval := interval self; period := period self; unit := v;
     job_func := job_func self; last_run := last_run self;
     next_run := next_run self; at_time := at_time self |}.
Definition set_job_func (v : option Action) (self : t) : t :=
  {| interval := interval self; period := period self; unit := unit self;
     job_func := v; last_run := last_run self;
     next_run := next_run self; at_time := at_time self |}.
Definition set_last_run (v : option Z) (self : t) : t :=
  {| interval := interval self; period := period self; unit := unit self;
     job_func := job_func self; last_run := v;
     next_run := next_run self; at_time := at_time self |}.
Definition set_next_run (v : option Z) (self : t) : t :=
  {| interval := interval self; period := period self; unit := unit self;
     job_func := job_func self; last_run := last_run self;
     next_run := v; at_time := at_time self |}.
Definition set_at_time (v : option Time) (self : t) : t :=
  {| interval := interval self; period := period self; unit := unit self;
     job_func := job_func self; last_run := last_run self;
     next_run := next_run self; at_time := v |}.

(** [self.next_run <= other.next_run]: ordering [None] against anything
    is a [TypeError]. *)
Definition __lt__ (self other : t) : Res bool :=
  match next_run self, next_run other with
  | Some a, Some b => Ok (a <=? b)
  | _, _ => Raise TypeError
  end.

(** The unit accessors: the plural ones set the unit, the singular ones
    first insist on an interval of 1. *)
Definition seconds : M t Datatypes.unit := modify (set_unit (Some Seconds)).
Definition minutes : M t Datatypes.unit := modify (set_unit (Some Minutes)).
Definition hours : M t Datatypes.unit := modify (set_unit (Some Hours)).
Definition days : M t Datatypes.unit := modify (set_unit (Some Days)).
Definition weeks : M t Datatypes.unit := modify (set_unit (Some Weeks)).

Definition singular (name : string) (plural : M t Datatypes.unit)
  : M t Datatypes.unit :=
  let* self := get in
  if negb (interval self =? 1) then raise (IntervalError (interval_error name))
  else plural.

Definition second := singular "second" seconds.
Definition minute := singular "minute" minutes.
Definition hour := singular "hour" hours.
Definition day := singular "day" days.
Definition week := singular "week" weeks.

(** The clock is read after [self.next_run] and before the comparison. *)
Definition should_run : M t bool :=
  let* self := get in
  let* n := now in
  match next_run self with
  | Some nr => ret (nr <=? n)
  | None => raise TypeError
  end.

(** A unit is one of the five names or [None]; only [None] fails the
    membership test at the head of the function.  The anchor and the last
    run are read from [self] as they stand on entry: the function writes
    neither.  A [time] and a [datetime] are always true, so the two tests
    on them are tests for [None]. *)
Definition _schedule_next_run : M t Datatypes.unit :=
  let* self := get in
  match unit self with
  | None => raise (SchedulerValueError scheduler_value_error)
  | Some u =>
      let* p := lift (timedelta u (interval self)) in
      let* _ := modify (set_period (Some p)) in
      let* n := now in
      let* nr := lift (dt_add n p) in
      let* _ := modify (set_next_run (Some nr)) in
      match at_time self with
      | None => ret tt
      | Some a =>
          if negb (Unit_eqb u Hours || Unit_eqb u Days)
          then raise (SchedulerValueError scheduler_value_error)
          else
            let kwargs :=
              [("minute", t_minute a); ("second", 0); ("microsecond", 0)]%string in
            let kwargs :=
              if Unit_eqb u Days then kwargs ++ [("hours"%string, t_hour a)]
              else kwargs in
            let* nr := lift (Py.replace nr kwargs) in
            let* _ := modify (set_next_run (Some nr)) in
            match last_run self with
            | Some _ => ret tt
            | None =>
                let* n := now in
                if Unit_eqb u Days && (Datetime.time_of_day n <? time_us a)
                then
                  let* nr := lift (dt_sub nr Datetime.DAY) in
                  modify (set_next_run (Some nr))
                else if Unit_eqb u Hours && (Datetime.minute n <? t_minute a)
                then
                  let* nr := lift (dt_sub nr Datetime.HOUR) in
                  modify (set_next_run (Some nr))
                else ret tt
            end
      end
  end.

(** [partial(job_func, *args, **kwargs)] is the action with its arguments
    bound: the [Action] given here. *)
Definition do (job_func : Action) : M t Datatypes.unit :=
  let* _ := modify (set_job_func (Some job_func)) in
  _schedule_next_run.

(** Calling [self.job_func]; calling [None] is a [TypeError]. *)
Definition call (f : option Action) : M t Z :=
  fun self c =>
    match f with
    | None => (Raise TypeError, self, c)
    | Some f =>
        match f (ticks c) with
        | Returns v => (Ok v, self, c)
        | Throws e => (Raise (ActionError e), self, c)
        end
    end.

Definition run : M t Z :=
  let* self := get in
  let* ret_ := call (job_func self) in
  let* n := now in
  let* _ := modify (set_last_run (Some n)) in
  let* _ := _schedule_next_run in
  ret ret_.

Definition at_ (time_value : string) : M t Datatypes.unit :=
  let* self := get in
  match unit self with
  | Some Hours | Some Days =>
      match Py.split ":" time_value with
      | [hour; minute] =>
          let* hour :=
            match unit self with
            | Some Days =>
                let* h := lift (Py.int hour) in
                if negb ((0 <=? h) && (h <=? 23))
                then raise (SchedulerValueError hour_wrong)
                else ret h
            | Some Hours => ret 0
            | _ => raise TypeError
            end in
          let* minute := lift (Py.int minute) in
          if negb ((0 <=? minute) && (minute <=? 59))
          then raise (SchedulerValueError minute_wrong)
          else
            let* a := lift (Py.time hour minute) in
            modify (set_at_time (Some a))
      | _ => raise ValueError
      end
  | _ => raise (SchedulerValueError scheduler_value_error)
  end.

End Job.

(** ** The scheduler *)

Module Scheduler.

Record t := mk { jobs : list Job.t }.

Definition __init__ : t := {| jobs := [] |}.

(** A job is known to its callers by its place in [self.jobs]: jobs are
    appended and never removed.  [on_job i m] calls the method [m] of the
    job at place [i], which is changed where it stands. *)
Definition on_job {A} (i : nat) (m : M Job.t A) : M t A :=
  fun self c =>
    match jobs self !! i with
    | None => (Raise InvalidReference, self, c)
    | Some j =>
        let '(r, j', c') := m j c in
        (r, {| jobs := <[i := j']> (jobs self) |}, c')
    end.

(** The new job is in the registry before any of its configuration. *)
Definition every (interval : Z) : M t nat :=
  fun self c =>
    (Ok (length (jobs self)),
     {| jobs := jobs self ++ [Job.__init__ interval] |}, c).

(** The generator [(job for job in self.jobs if job.should_run)], run to
    its end as [sorted] does; [i] is the place of the head of [js]. *)
Fixpoint all_jobs (i : nat) (js : list Job.t) : M t (list (nat * Job.t)) :=
  match js with
  | [] => ret []
  | j :: js' =>
      let* due := on_job i Job.should_run in
      let* rest := all_jobs (S i) js' in
      ret (if due then (i, j) :: rest else rest)
  end.

Definition lt_job (x y : nat * Job.t) : Res bool := Job.__lt__ (snd x) (snd y).

(** [for job in order: body]. *)
Fixpoint for_each (order : list nat) (body : nat -> M t Datatypes.unit)
  : M t Datatypes.unit :=
  match order with
  | [] => ret tt
  | job :: order' => let* _ := body job in for_each order' body
  end.

(** [sorted(all_jobs)]: the due jobs in the order in which [run_pending]
    runs them. *)
Definition pending : M t (list (nat * Job.t)) :=
  let* self := get in
  let* due := all_jobs 0 (jobs self) in
  lift (Builtins.sorted lt_job due).

Definition run_pending : M t Datatypes.unit :=
  let* order := pending in
  for_each (map fst order)
    (fun job => let* _ := on_job job Job.run in ret tt).

(** [time.sleep] with an [int].  The delay is first turned into a
    64-bit count of nanoseconds, which holds [SLEEP_LIMIT] whole seconds:
    beyond that, on either side of zero, the call raises
    [OverflowError].  Then a negative delay raises [ValueError].  The
    call sleeps until the monotonic clock reaches its reading plus the
    delay, and raises [OSError] where that sum passes the 64-bit range:
    up to [SLEEP_SAFE], half the range, it cannot; above, it depends on
    how long the machine has been running, which is outside this model.
    The time that a sleep lets pass shows in the next reading of the
    clock. *)
Definition SLEEP_LIMIT : Z := 9223372036.
Definition SLEEP_SAFE : Z := 4611686018.

Definition sleep (secs : Z) : M t Datatypes.unit :=
  if (secs <? - SLEEP_LIMIT) || (SLEEP_LIMIT <? secs) then raise OverflowError
  else if secs <? 0 then raise ValueError
  else if secs <=? SLEEP_SAFE then ret tt
  else raise Unmodelled.

Definition run_all (delay_second : Z) : M t Datatypes.unit :=
  let* self := get in
  for_each (seq 0 (length (jobs self)))
    (fun job => let* _ := on_job job Job.run in sleep delay_second).

Definition next_run : M t (option Z) :=
  let* self := get in
  match jobs self with
  | [] => ret None
  | _ =>
      let* j := lift (Builtins.min Job.__lt__ (jobs self)) in
      ret (Job.next_run j)
  end.

(** [None - datetime] is a [TypeError]; both operands are evaluated
    first. *)
Definition idle_seconds : M t Z :=
  let* nr := next_run in
  let* n := now in
  match nr with
  | Some nr => ret (nr - n)
  | None => raise TypeError
  end.

End Scheduler.

(** ** Notions used in the statements *)

(** A computation is steady when it only moves the clock forward along
    the same readings. *)
Definition steady {St A} (m : M St A) : Prop :=
  forall s c r s' c',
    m s c = (r, s', c') ->
    readings c' = readings c /\ (ticks c <= ticks c')%nat.

(** A next run lies on an anchor when it has the anchor's minute and no
    seconds. *)
Definition on_anchor (a : Time) (t : Z) : Prop :=
  t = Datetime.hour_floor t + t_minute a * Datetime.MINUTE.

(** The next run of an hourly job with an anchor lies on that anchor. *)
Definition anchored (self : Job.t) : Prop :=
  match Job.unit self, Job.at_time self, Job.next_run self with
  | Some Hours, Some a, Some t => on_anchor a t
  | _, _, _ => True
  end.

(** The minute of an anchor is one that [time] accepts. *)
Definition anchor_valid (self : Job.t) : Prop :=
  forall a, Job.at_time self = Some a -> 0 <= t_minute a <= 59.

(** The entry [x] of the due list names a job of the registry whose next
    run had come when the poll that started at [c] and ended at [c'] checked
    it: the job at place [k] is checked against the reading [ticks c + k]. *)
Definition was_due (s : Scheduler.t) (c c' : Clock) (x : nat * Job.t) : Prop :=
  Scheduler.jobs s !! x.1 = Some x.2
  /\ exists t, Job.next_run x.2 = Some t
               /\ (ticks c + x.1 < ticks c')%nat
               /\ t <= readings c (ticks c + x.1)%nat.

(** [x] comes before [y] when its key is smaller, or the keys are equal and
    [x] came later in the input. *)
Definition later_first {A} (key : A -> Z) (idx : A -> nat) (x y : A) : Prop :=
  key x < key y \/ (key x = key y /\ (idx y < idx x)%nat).

(** The key by which the due list is sorted: the next run of the job, which
    every entry of the due list has. *)
Definition next_run_key (x : nat * Job.t) : Z :=
  match Job.next_run x.2 with
  | Some t => t
  | None => 0
  end.

(** Text made of ASCII characters only, as [str.isascii] tells. *)
Fixpoint ascii_text (s : string) : bool :=
  match s with
  | EmptyString => true
  | String c r => (nat_of_ascii c <? 128)%nat && ascii_text r
  end.

(** The number of times a character occurs in a string. *)
Fixpoint occurrences (ch : ascii) (s : string) : nat :=
  match s with
  | EmptyString => 0
  | String x r => (if Ascii.eqb x ch then 1 else 0) + occurrences ch r
  end.

(** The settings of a job: what the builder methods write and a run never
    touches. *)
Definition same_config (j j' : Job.t) : Prop :=
  Job.interval j' = Job.interval j /\ Job.unit j' = Job.unit j
  /\ Job.job_func j' = Job.job_func j /\ Job.at_time j' = Job.at_time j.

(** A computation keeps a relation when the state it ends in, returning or
    raising, is related to the state it started from. *)
Definition keeps {St A} (R : St -> St -> Prop) (m : M St A) : Prop :=
  forall s c r s' c', m s c = (r, s', c') -> R s s'.

(** Scheduling writes the period and the next run, and nothing else. *)
Definition same_but_schedule (j j' : Job.t) : Prop :=
  same_config j j' /\ Job.last_run j' = Job.last_run j.

(** The job [j] at place [k] is one that [run_all], started at [c], runs to
    its end: it has a unit and no anchor, its action returns at its turn,
    and its next run is an instant a [datetime] can hold.  Every job
    before it has read the clock twice. *)
Definition runs_plainly (c : Clock) (k : nat) (j : Job.t) : Prop :=
  Job.at_time j = None
  /\ exists u f v,
      Job.unit j = Some u /\ Job.job_func j = Some f
      /\ f (ticks c + 2 * k)%nat = Returns v
      /\ Datetime.valid (readings c (ticks c + 2 * k + 1)%nat)
      /\ Datetime.valid (readings c (ticks c + 2 * k + 1)%nat
                         + Job.interval j * unit_duration u).

(** ** Sample objects

    The jobs, instants and programs at which the statements below are
    tried. *)

Definition returns (v : Z) : Action := fun _ => Returns v.

(** 08:00 on some day. *)
Definition eight_o_clock : Z := 1000 * Datetime.DAY + 8 * Datetime.HOUR.

(** A job run every [k] seconds whose next run is [t]. *)
Definition sample_job (k t : Z) : Job.t :=
  {| Job.interval := k; Job.period := Some (k * Datetime.SECOND);
     Job.unit := Some Seconds; Job.job_func := Some (returns 0);
     Job.last_run := None; Job.next_run := Some t; Job.at_time := None |}.

(** The job built by [every().days.at("09:00")], before [do]. *)
Definition daily_at_nine : Job.t :=
  Job.set_at_time (Some (mkTime 9 0)) (Job.set_unit (Some Days) (Job.__init__ 1)).

(** [job = every().hours.do(f)] followed by [job.at("00:30")]. *)
Definition anchor_after_do : M Scheduler.t Datatypes.unit :=
  let* job := Scheduler.every 1 in
  let* _ := Scheduler.on_job job Job.hours in
  let* _ := Scheduler.on_job job (Job.do (returns 0)) in
  Scheduler.on_job job (Job.at_ "00:30").

(** A clock that reads 09:45 once and 10:50 from then on. *)
Definition late_anchor_clock : Clock :=
  {| readings := fun n =>
       match n with
       | O => eight_o_clock + 105 * Datetime.MINUTE
       | _ => eight_o_clock + 170 * Datetime.MINUTE
       end;
     ticks := 0 |}.

(** [.hours.at("00:30").do(f)], called on a fresh job. *)
Definition every_two_hours_at_half : M Job.t Datatypes.unit :=
  let* _ := Job.hours in
  let* _ := Job.at_ "00:30" in
  Job.do (returns 0).

(** The job built by [every().hour.at("00:30")], before [do]. *)
Definition hourly_at_half : Job.t :=
  Job.set_at_time (Some (mkTime 0 30)) (Job.set_unit (Some Hours) (Job.__init__ 1)).


(** * Properties *)

Ltac unfold_time :=
  unfold Datetime.valid, Datetime.validb, Datetime.delta_validb,
    Datetime.hour_floor, Datetime.time_of_day,
    Datetime.hour, Datetime.minute, Datetime.second, Datetime.microsecond,
    time_us, unit_duration, Datetime.MAX, Datetime.WEEK, Datetime.DAY,
    Datetime.HOUR, Datetime.MINUTE, Datetime.SECOND in *.

Ltac unfold_m :=
  unfold bind, get, modify, lift, ret, raise, now in *.

Section Arithmetic.

Lemma validb_true (t : Z) : Datetime.valid t -> Datetime.validb t = true.
Proof.
  unfold Datetime.valid, Datetime.validb. intros [H0 H1].
  apply andb_true_intro. split; [apply Z.leb_le | apply Z.ltb_lt]; assumption.
Qed.

Lemma dt_add_valid (t d : Z) : Datetime.valid (t + d) -> dt_add t d = Ok (t + d).
Proof. intros H. unfold dt_add. now rewrite validb_true. Qed.

Lemma dt_sub_valid (t d : Z) : Datetime.valid (t - d) -> dt_sub t d = Ok (t - d).
Proof. intros H. unfold dt_sub. now rewrite validb_true. Qed.

Lemma unit_duration_pos (u : Unit) : 0 < unit_duration u.
Proof. destruct u; unfold_time; lia. Qed.

(** A period that keeps a valid instant valid is a [timedelta]. *)
Lemma timedelta_valid (u : Unit) (k t : Z) :
  Datetime.valid t -> Datetime.valid (t + k * unit_duration u) ->
  timedelta u k = Ok (k * unit_duration u).
Proof.
  intros Ht Hs. unfold timedelta.
  assert (Hd : Datetime.delta_validb (k * unit_duration u) = true).
  { set (d := k * unit_duration u) in *. clearbody d.
    unfold Datetime.delta_validb. apply andb_true_intro.
    split; [apply Z.leb_le | apply Z.ltb_lt]; unfold_time; lia. }
  now rewrite Hd.
Qed.

Lemma replace_anchor_minute (t m : Z) :
  0 <= m <= 59 ->
  Py.replace t [("minute", m); ("second", 0); ("microsecond", 0)]%string
  = Ok (Datetime.hour_floor t + m * Datetime.MINUTE).
Proof.
  intros Hm. unfold Py.replace. cbn.
  assert (H1 : (0 <=? m) && (m <=? 59) = true)
    by (apply andb_true_intro; split; lia).
  rewrite H1. cbn. f_equal.
  unfold_time. Z.div_mod_to_equations. lia.
Qed.

(** The keyword [hours] is no parameter of [replace]. *)
Lemma replace_hours_keyword (t m h : Z) :
  Py.replace t [("minute", m); ("second", 0); ("microsecond", 0); ("hours", h)]%string
  = Raise TypeError.
Proof. reflexivity. Qed.

Lemma hour_floor_add (t k : Z) :
  Datetime.hour_floor (t + k * Datetime.HOUR) = Datetime.hour_floor t + k * Datetime.HOUR.
Proof.
  unfold Datetime.hour_floor. rewrite Z.div_add by (unfold_time; lia). lia.
Qed.

Lemma hour_floor_le (t : Z) : Datetime.hour_floor t <= t < Datetime.hour_floor t + Datetime.HOUR.
Proof. unfold_time. Z.div_mod_to_equations. lia. Qed.

Lemma hour_floor_mono (s t : Z) : s <= t -> Datetime.hour_floor s <= Datetime.hour_floor t.
Proof. intros H. unfold_time. Z.div_mod_to_equations. lia. Qed.

End Arithmetic.

Section Strings.

Lemma split_without_sep (sep : ascii) (s : string) :
  Py.contains sep s = false -> Py.split sep s = [s].
Proof.
  induction s as [|x r IH]; cbn; [reflexivity|].
  intros H. apply orb_false_elim in H as [Hx Hr].
  rewrite Hx, (IH Hr). reflexivity.
Qed.

Lemma split_at_sep (sep : ascii) (h m : string) :
  Py.contains sep h = false ->
  Py.split sep (h ++ String sep m) = h :: Py.split sep m.
Proof.
  induction h as [|x r IH]; cbn.
  - intros _. now rewrite Ascii.eqb_refl.
  - intros H. apply orb_false_elim in H as [Hx Hr].
    rewrite Hx, (IH Hr). reflexivity.
Qed.

Lemma split_hh_mm (hh mm : string) :
  Py.contains ":" hh = false -> Py.contains ":" mm = false ->
  Py.split ":" (hh ++ ":" ++ mm) = [hh; mm].
Proof.
  intros Hh Hm. change (":" ++ mm)%string with (String ":" mm).
  rewrite split_at_sep by assumption. now rewrite split_without_sep.
Qed.

End Strings.

Arguments Py.replace : simpl never.
Arguments dt_add : simpl never.
Arguments dt_sub : simpl never.
Arguments timedelta : simpl never.
Arguments read : simpl never.
Arguments advance : simpl never.

Section Running.

Variables (self : Job.t) (c : Clock).

Lemma run_action_throws (f : Action) (e : Z) :
  Job.job_func self = Some f -> f (ticks c) = Throws e ->
  Job.run self c = (Raise (ActionError e), self, c).
Proof.
  intros Hf He. unfold Job.run, Job.call. unfold_m.
  rewrite Hf, He. reflexivity.
Qed.

Lemma run_action_returns (f : Action) (v : Z) :
  Job.job_func self = Some f -> f (ticks c) = Returns v ->
  Job.run self c
  = match Job._schedule_next_run (Job.set_last_run (Some (read c)) self)
            (advance c) with
    | (Ok _, self', c') => (Ok v, self', c')
    | (Raise e, self', c') => (Raise e, self', c')
    end.
Proof.
  intros Hf Hv. unfold Job.run, Job.call. unfold_m.
  rewrite Hf, Hv.
  destruct (Job._schedule_next_run _ _) as [[[[]|e] s'] c']; reflexivity.
Qed.

End Running.

(** The next run that a job gets when it is scheduled again after a run. *)
Lemma schedule_after_run (self : Job.t) (c : Clock) (u : Unit) (lr : Z) :
  Job.unit self = Some u ->
  Job.last_run self = Some lr ->
  (forall a, Job.at_time self = Some a -> 0 <= t_minute a <= 59) ->
  Datetime.valid (read c) ->
  Datetime.valid (read c + Job.interval self * unit_duration u) ->
  exists r self',
    Job._schedule_next_run self c = (r, self', advance c)
    /\ Job.last_run self' = Some lr
    /\ Job.next_run self'
       = Some (match Job.at_time self, u with
               | Some a, Hours =>
                   Datetime.hour_floor (read c) + Job.interval self * Datetime.HOUR
                   + t_minute a * Datetime.MINUTE
               | _, _ => read c + Job.interval self * unit_duration u
               end)
    /\ (Job.at_time self = None \/ u = Hours -> r = Ok tt).
Proof.
  intros Hu Hl Ha Hv Hs. unfold Job._schedule_next_run. unfold_m.
  rewrite Hu. rewrite (timedelta_valid u _ (read c)) by assumption.
  rewrite dt_add_valid by assumption. cbn.
  assert (Hfin : forall (r : Res Datatypes.unit) self' t',
             Job.last_run self' = Some lr -> Job.next_run self' = Some t' ->
             (Job.at_time self = None \/ u = Hours -> r = Ok tt) ->
             exists r0 self0,
               (r, self', advance c) = (r0, self0, advance c)
               /\ Job.last_run self0 = Some lr
               /\ Job.next_run self0 = Some t'
               /\ (Job.at_time self = None \/ u = Hours -> r0 = Ok tt))
    by (intros; eauto 10).
  destruct (Job.at_time self) as [a|] eqn:Hat.
  - specialize (Ha a eq_refl).
    destruct u; cbn.
    + apply Hfin; [exact Hl | reflexivity | intros [H|H]; discriminate].
    + apply Hfin; [exact Hl | reflexivity | intros [H|H]; discriminate].
    + rewrite replace_anchor_minute by assumption. rewrite Hl. cbn.
      apply Hfin; [exact Hl | cbn; now rewrite hour_floor_add | reflexivity].
    + rewrite replace_hours_keyword.
      apply Hfin; [exact Hl | reflexivity | intros [H|H]; discriminate].
    + apply Hfin; [exact Hl | reflexivity | intros [H|H]; discriminate].
  - apply Hfin; [exact Hl | now destruct u | reflexivity].
Qed.

(** ** What every computation does to the clock *)

Section Steady.

Context {St : Type}.

Lemma steady_ret {A} (a : A) : steady (ret (S := St) a).
Proof. intros s c r s' c' H. unfold_m. inversion H; subst. split; [reflexivity | lia]. Qed.

Lemma steady_raise {A} (e : Exn) : steady (raise (S := St) (A := A) e).
Proof. intros s c r s' c' H. unfold_m. inversion H; subst. split; [reflexivity | lia]. Qed.

Lemma steady_get : steady (get (S := St)).
Proof. intros s c r s' c' H. unfold_m. inversion H; subst. split; [reflexivity | lia]. Qed.

Lemma steady_modify (f : St -> St) : steady (modify f).
Proof. intros s c r s' c' H. unfold_m. inversion H; subst. split; [reflexivity | lia]. Qed.

Lemma steady_lift {A} (x : Res A) : steady (lift (S := St) x).
Proof. intros s c r s' c' H. unfold_m. inversion H; subst. split; [reflexivity | lia]. Qed.

Lemma steady_now : steady (now (S := St)).
Proof.
  intros s c r s' c' H. unfold_m. inversion H; subst. unfold advance; cbn. split; [reflexivity | lia].
Qed.

Lemma steady_bind {A B} (m : M St A) (k : A -> M St B) :
  steady m -> (forall a, steady (k a)) -> steady (bind m k).
Proof.
  intros Hm Hk s c r s' c' H. unfold bind in H.
  destruct (m s c) as [[[a|e] s1] c1] eqn:E.
  - destruct (Hm _ _ _ _ _ E) as [R1 T1].
    destruct (Hk a _ _ _ _ _ H) as [R2 T2].
    split; [congruence | lia].
  - inversion H; subst. exact (Hm _ _ _ _ _ E).
Qed.

End Steady.

Ltac steady :=
  repeat first
    [ apply steady_ret | apply steady_raise | apply steady_get
    | apply steady_modify | apply steady_lift | apply steady_now
    | apply steady_bind; [| intros ?]
    | match goal with
      | |- steady (match ?x with _ => _ end) => destruct x
      | |- steady (if ?b then _ else _) => destruct b
      end ].

Lemma steady_schedule_next_run : steady Job._schedule_next_run.
Proof. unfold Job._schedule_next_run. steady. Qed.

Lemma steady_call (f : option Action) : steady (Job.call f).
Proof.
  intros s c r s' c' H. unfold Job.call in H.
  destruct f as [f|]; [destruct (f (ticks c))|]; inversion H; subst;
    (split; [reflexivity | lia]).
Qed.

Lemma steady_run : steady Job.run.
Proof.
  unfold Job.run. apply steady_bind; [apply steady_get | intros self].
  apply steady_bind; [apply steady_call | intros v].
  pose proof steady_schedule_next_run. steady; assumption.
Qed.

Lemma steady_should_run : steady Job.should_run.
Proof. unfold Job.should_run. steady. Qed.

Lemma steady_on_job {A} (i : nat) (m : M Job.t A) :
  steady m -> steady (Scheduler.on_job i m).
Proof.
  intros Hm s c r s' c' H. unfold Scheduler.on_job in H.
  destruct (Scheduler.jobs s !! i) as [j|].
  - destruct (m j c) as [[r1 j1] c1] eqn:E. inversion H; subst.
    exact (Hm _ _ _ _ _ E).
  - inversion H; subst. split; [reflexivity | lia].
Qed.

Lemma steady_for_each (order : list nat) (body : nat -> M Scheduler.t Datatypes.unit) :
  (forall i, steady (body i)) -> steady (Scheduler.for_each order body).
Proof.
  intros Hb. induction order as [|i order IH]; cbn; [apply steady_ret|].
  apply steady_bind; [apply Hb | intros _; exact IH].
Qed.

Lemma steady_all_jobs (js : list Job.t) (i : nat) :
  steady (Scheduler.all_jobs i js).
Proof.
  revert i. induction js as [|j js IH]; intros i; cbn; [apply steady_ret|].
  apply steady_bind; [apply steady_on_job, steady_should_run | intros b].
  apply steady_bind; [apply IH | intros rest]. apply steady_ret.
Qed.

(** ** A run moves the next run forward *)

Lemma on_anchor_floor (a : Time) (h : Z) :
  0 <= t_minute a <= 59 ->
  on_anchor a (Datetime.hour_floor h + t_minute a * Datetime.MINUTE).
Proof.
  intros Hm. unfold on_anchor. unfold_time. Z.div_mod_to_equations. lia.
Qed.

Section RunMoves.

Variables (self : Job.t) (c : Clock) (u : Unit) (f : Action) (v t : Z).

Hypothesis unit_set : Job.unit self = Some u.
Hypothesis interval_positive : 1 <= Job.interval self.
Hypothesis anchor_ok : anchor_valid self.
Hypothesis action : Job.job_func self = Some f.
Hypothesis completes : f (ticks c) = Returns v.
Hypothesis next : Job.next_run self = Some t.
Hypothesis clock_valid : Datetime.valid (read (advance c)).
Hypothesis sum_valid :
  Datetime.valid (read (advance c) + Job.interval self * unit_duration u).

(** The job was due at a reading taken before the run. *)
Variable n : nat.
Hypothesis clock_monotone : monotone c.
Hypothesis checked_before : (n <= ticks c)%nat.
Hypothesis due : t <= readings c n.

Lemma run_moves_next_run :
  exists r self' t',
    Job.run self c = (r, self', advance (advance c))
    /\ Job.last_run self' = Some (read c)
    /\ Job.next_run self' = Some t'
    /\ t < t'
    /\ (anchored self -> t + Job.interval self * unit_duration u <= t')
    /\ (Job.at_time self = None \/ u = Hours -> r = Ok v).
Proof.
  rewrite (run_action_returns self c f v action completes).
  destruct (schedule_after_run (Job.set_last_run (Some (read c)) self)
              (advance c) u (read c) unit_set eq_refl anchor_ok
              clock_valid sum_valid)
    as (r & self' & E & Hl & Hn & Hr).
  rewrite E. cbn [Job.set_last_run Job.at_time Job.interval] in Hn, Hr.
  assert (Hle : t <= read (advance c)).
  { etransitivity; [exact due|]. apply clock_monotone.
    unfold advance; cbn. lia. }
  pose proof (unit_duration_pos u) as Hd.
  pose proof (hour_floor_le (read (advance c))) as Hf.
  assert (Hrest :
    exists t', Job.next_run self' = Some t' /\ t < t'
      /\ (anchored self -> t + Job.interval self * unit_duration u <= t')).
  { eexists. split; [exact Hn|].
    unfold anchored, on_anchor. rewrite unit_set, next.
    destruct (Job.at_time self) as [a|] eqn:Ha.
    - pose proof (anchor_ok a Ha) as Hm.
      destruct u; cbn [unit_duration] in *; try (split; [lia | intros _; lia]).
      split.
      + unfold_time. lia.
      + intros Ht. pose proof (hour_floor_mono _ _ Hle) as Hmono.
        unfold_time. lia.
    - split; [nia | intros _; nia]. }
  destruct Hrest as (t' & Hn' & Hlt & Hanch).
  destruct r as [[]|e].
  - exists (Ok v), self', t'. repeat split; auto.
  - exists (Raise e), self', t'. repeat split; auto.
    intros H. specialize (Hr H). discriminate.
Qed.

End RunMoves.

(** Every next run computed under an anchor lies on it: a job is [anchored]
    when [do] or a run has scheduled it with the anchor it has now. *)
Lemma schedule_anchors (self self' : Job.t) (c c' : Clock) :
  anchor_valid self ->
  Job._schedule_next_run self c = (Ok tt, self', c') ->
  anchored self'.
Proof.
  intros Hv. unfold Job._schedule_next_run. unfold_m.
  destruct (Job.unit self) as [u|] eqn:Hu; [|discriminate].
  destruct (timedelta u (Job.interval self)) as [p|]; [|discriminate].
  destruct (dt_add (read c) p) as [nr|]; [|discriminate].
  cbn. destruct (Job.at_time self) as [a|] eqn:Ha.
  2:{ intros [= <- <-]. unfold anchored. cbn. rewrite Hu, Ha. now destruct u. }
  pose proof (Hv a Ha) as Hm.
  destruct u; cbn; try discriminate.
  rewrite replace_anchor_minute by assumption.
  destruct (Job.last_run self); cbn.
  - intros [= <- <-]. unfold anchored. cbn. rewrite Hu, Ha.
    now apply on_anchor_floor.
  - destruct (Datetime.minute (read (advance c)) <? t_minute a).
    + unfold dt_sub.
      destruct (Datetime.validb _); [|discriminate].
      intros [= <- <-]. unfold anchored. cbn. rewrite Hu, Ha.
      unfold on_anchor. unfold_time. Z.div_mod_to_equations. lia.
    + intros [= <- <-]. unfold anchored. cbn. rewrite Hu, Ha.
      now apply on_anchor_floor.
Qed.

Lemma do_anchors (self self' : Job.t) (c c' : Clock) (f : Action) :
  anchor_valid self ->
  Job.do f self c = (Ok tt, self', c') ->
  anchored self'.
Proof.
  intros Hv. unfold Job.do. unfold bind at 1. unfold modify.
  apply schedule_anchors. exact Hv.
Qed.

Lemma run_anchors (self self' : Job.t) (c c' : Clock) (v : Z) :
  anchor_valid self ->
  Job.run self c = (Ok v, self', c') ->
  anchored self'.
Proof.
  intros Hv H. destruct (Job.job_func self) as [f|] eqn:Hf.
  - destruct (f (ticks c)) as [w|e] eqn:Hw.
    + rewrite (run_action_returns self c f w Hf Hw) in H.
      destruct (Job._schedule_next_run _ _) as [[[[]|e] s2] c2] eqn:Es;
        [|discriminate].
      injection H as <- <- <-.
      exact (schedule_anchors (Job.set_last_run (Some (read c)) self) _ _ _
               Hv Es).
    + rewrite (run_action_throws self c f e Hf Hw) in H. discriminate.
  - unfold Job.run, Job.call in H. unfold_m. rewrite Hf in H. discriminate.
Qed.

(** ** The built-ins *)

Section SortFacts.

Context {A : Type} (lt : A -> A -> Res bool).

Lemma binarysort_perm (rest : list A) :
  forall front l', Builtins.binarysort lt front rest = Ok l' ->
                   l' ≡ₚ front ++ rest.
Proof.
  induction rest as [|p rest IH]; intros front l'; cbn.
  - intros [= <-]. now rewrite app_nil_r.
  - destruct (Builtins.bisect lt _ front p 0 _) as [pos|e]; cbn;
      [|discriminate].
    intros H. rewrite (IH _ _ H).
    rewrite <- (take_drop pos front) at 3.
    rewrite <- !app_assoc. cbn.
    rewrite <- (Permutation_middle (drop pos front)). reflexivity.
Qed.

(** What [sorted] returns holds the items it was given. *)
Lemma sorted_perm (l l' : list A) :
  Builtins.sorted lt l = Ok l' -> l' ≡ₚ l.
Proof.
  unfold Builtins.sorted. destruct (length l <? 2)%nat.
  - now intros [= <-].
  - destruct (Builtins.count_run lt l) as [[n d]|e]; cbn; [|discriminate].
    intros H. rewrite (binarysort_perm _ _ _ H).
    transitivity (take n l ++ drop n l); [|now rewrite take_drop].
    apply Permutation_app_tail.
    destruct d; [symmetry; apply Permutation_rev | reflexivity].
Qed.

(** [sorted] and [min] raise only what a comparison raises. *)
Variable P : Exn -> Prop.
Hypothesis lt_raises : forall x y e, lt x y = Raise e -> P e.

Lemma descending_run_raises (l : list A) :
  forall x e, Builtins.descending_run lt x l = Raise e -> P e.
Proof.
  induction l as [|y l IH]; intros x e; cbn; [discriminate|].
  destruct (lt y x) as [[]|e'] eqn:E; cbn.
  - destruct (Builtins.descending_run lt y l) eqn:E'; cbn; [discriminate|].
    intros [= <-]. eauto.
  - discriminate.
  - intros [= <-]. eauto.
Qed.

Lemma ascending_run_raises (l : list A) :
  forall x e, Builtins.ascending_run lt x l = Raise e -> P e.
Proof.
  induction l as [|y l IH]; intros x e; cbn; [discriminate|].
  destruct (lt y x) as [[]|e'] eqn:E; cbn.
  - discriminate.
  - destruct (Builtins.ascending_run lt y l) eqn:E'; cbn; [discriminate|].
    intros [= <-]. eauto.
  - intros [= <-]. eauto.
Qed.

Lemma count_run_raises (l : list A) (e : Exn) :
  Builtins.count_run lt l = Raise e -> P e.
Proof.
  destruct l as [|x [|y l]]; cbn; try discriminate.
  destruct (lt y x) as [[]|e'] eqn:E; cbn.
  - destruct (Builtins.descending_run lt y l) eqn:E'; cbn; [discriminate|].
    intros [= <-]. eauto using descending_run_raises.
  - destruct (Builtins.ascending_run lt y l) eqn:E'; cbn; [discriminate|].
    intros [= <-]. eauto using ascending_run_raises.
  - intros [= <-]. eauto.
Qed.

Lemma bisect_raises (fuel : nat) (front : list A) (p : A) :
  forall l r e, Builtins.bisect lt fuel front p l r = Raise e -> P e.
Proof.
  induction fuel as [|fuel IH]; intros l r e; cbn [Builtins.bisect];
    [discriminate|].
  destruct (l <? r)%nat; [|discriminate].
  destruct (front !! _); [|discriminate].
  destruct (lt p a) as [[]|e'] eqn:E; cbn; eauto.
  intros [= <-]. eauto.
Qed.

Lemma binarysort_raises (rest : list A) :
  forall front e, Builtins.binarysort lt front rest = Raise e -> P e.
Proof.
  induction rest as [|p rest IH]; intros front e; cbn; [discriminate|].
  destruct (Builtins.bisect lt _ front p 0 _) as [pos|e'] eqn:E; cbn.
  - apply IH.
  - intros [= <-]. eauto using bisect_raises.
Qed.

Lemma sorted_raises (l : list A) (e : Exn) :
  Builtins.sorted lt l = Raise e -> P e.
Proof.
  unfold Builtins.sorted. destruct (length l <? 2)%nat; [discriminate|].
  destruct (Builtins.count_run lt l) as [[n d]|e'] eqn:E; cbn.
  - apply binarysort_raises.
  - intros [= <-]. eauto using count_run_raises.
Qed.

End SortFacts.

Lemma lt_job_raises (x y : nat * Job.t) (e : Exn) :
  Scheduler.lt_job x y = Raise e -> e = TypeError.
Proof.
  unfold Scheduler.lt_job, Job.__lt__.
  destruct (Job.next_run x.2), (Job.next_run y.2); congruence.
Qed.

(** ** The registry *)

Section Registry.

Lemma scheduler_eta (s : Scheduler.t) : Scheduler.mk (Scheduler.jobs s) = s.
Proof. now destruct s. Qed.

Lemma on_job_at {A} (i : nat) (m : M Job.t A) (s : Scheduler.t) (c : Clock)
      (j : Job.t) :
  Scheduler.jobs s !! i = Some j ->
  Scheduler.on_job i m s c
  = (let '(r, j', c') := m j c in
     (r, Scheduler.mk (<[i := j']> (Scheduler.jobs s)), c')).
Proof. intros Hj. unfold Scheduler.on_job. now rewrite Hj. Qed.

Lemma on_job_should_run (i : nat) (s : Scheduler.t) (c : Clock) (j : Job.t) :
  Scheduler.jobs s !! i = Some j ->
  Scheduler.on_job i Job.should_run s c
  = (match Job.next_run j with
     | Some nr => Ok (nr <=? read c)
     | None => Raise TypeError
     end, s, advance c).
Proof.
  intros Hj. rewrite (on_job_at _ _ _ _ j Hj).
  unfold Job.should_run. unfold_m.
  destruct (Job.next_run j); cbn;
    rewrite list_insert_id by assumption; now rewrite scheduler_eta.
Qed.

(** Calling a method of one job leaves the others as they are. *)
Lemma on_job_frame {A} (i k : nat) (m : M Job.t A) (s s' : Scheduler.t)
      (c c' : Clock) (r : Res A) :
  Scheduler.on_job i m s c = (r, s', c') -> k <> i ->
  Scheduler.jobs s' !! k = Scheduler.jobs s !! k.
Proof.
  unfold Scheduler.on_job. intros H Hk.
  destruct (Scheduler.jobs s !! i) as [j|].
  - destruct (m j c) as [[r1 j1] c1]. inversion H; subst. cbn.
    now apply list_lookup_insert_ne.
  - now inversion H; subst.
Qed.

Lemma all_jobs_inv (js : list Job.t) :
  forall i s c r s' c',
    (forall k j, js !! k = Some j -> Scheduler.jobs s !! (i + k)%nat = Some j) ->
    Scheduler.all_jobs i js s c = (r, s', c') ->
    s' = s
    /\ match r with
       | Raise e => e = TypeError
       | Ok due =>
           Forall (fun x : nat * Job.t =>
                     Scheduler.jobs s !! x.1 = Some x.2
                     /\ exists t,
                         Job.next_run x.2 = Some t
                         /\ (ticks c + (x.1 - i) < ticks c')%nat
                         /\ t <= readings c (ticks c + (x.1 - i))%nat) due
           /\ Forall (fun x => (i <= x.1)%nat) due
           /\ NoDup (map fst due)
           /\ Forall (fun j => Job.next_run j <> None) js
           /\ (forall k j t,
                 js !! k = Some j -> Job.next_run j = Some t ->
                 t <= readings c (ticks c + k)%nat ->
                 ((i + k)%nat, j) ∈ due)
       end.
Proof.
  induction js as [|j js IH]; intros i s c r s' c' Hjs H.
  - cbn in H. unfold_m. injection H as <- <- <-.
    repeat split; try constructor. intros k j t Hk. discriminate.
  - cbn [Scheduler.all_jobs] in H. unfold bind at 1 in H.
    assert (Hj : Scheduler.jobs s !! i = Some j).
    { rewrite <- (Nat.add_0_r i). now apply Hjs. }
    rewrite (on_job_should_run _ _ _ _ Hj) in H.
    destruct (Job.next_run j) as [nr|] eqn:Hn.
    2:{ injection H as <- <- <-. now split. }
    unfold bind at 1 in H.
    destruct (Scheduler.all_jobs (S i) js s (advance c)) as [[r1 s1] c1] eqn:E.
    pose proof (steady_all_jobs _ _ _ _ _ _ _ E) as [_ Hticks].
    apply IH in E.
    2:{ intros k j0 Hk. replace (S i + k)%nat with (i + S k)%nat by lia.
        now apply Hjs. }
    destruct E as [-> E].
    destruct r1 as [rest|e]; unfold_m; injection H as <- <- <-; [|now split].
    destruct E as (Hdue & Hge & Hnd & Hsome & Hall).
    split; [reflexivity|].
    unfold advance in Hticks; cbn in Hticks.
    assert (Hdue' : Forall (fun x : nat * Job.t =>
               Scheduler.jobs s !! x.1 = Some x.2
               /\ exists t,
                   Job.next_run x.2 = Some t
                   /\ (ticks c + (x.1 - i) < ticks c1)%nat
                   /\ t <= readings c (ticks c + (x.1 - i))%nat) rest).
    { rewrite Forall_forall in Hdue, Hge. apply Forall_forall.
      intros x Hin. destruct (Hdue x Hin) as (Hx & t & Ht & Hb & Hle).
      specialize (Hge x Hin). cbn in Hge.
      assert (Heq : (ticks (advance c) + (x.1 - S i)
                     = ticks c + (x.1 - i))%nat).
      { unfold advance; cbn. lia. }
      rewrite Heq in Hb, Hle. unfold advance in Hle; cbn [readings] in Hle.
      split; [exact Hx|]. exists t. now repeat split. }
    assert (Hge' : Forall (fun x : nat * Job.t => (i <= x.1)%nat) rest).
    { eapply Forall_impl; [exact Hge|]. cbn. intros x Hx. lia. }
    assert (Hsome' : Forall (fun j0 => Job.next_run j0 <> None) (j :: js)).
    { constructor; [congruence | exact Hsome]. }
    assert (Hrest : forall k j0 t,
               js !! k = Some j0 -> Job.next_run j0 = Some t ->
               t <= readings c (ticks c + S k)%nat ->
               ((i + S k)%nat, j0) ∈ rest).
    { intros k j0 t Hk Hn0 Hle0.
      replace (i + S k)%nat with (S i + k)%nat by lia.
      apply (Hall k j0 t Hk Hn0). unfold advance; cbn.
      now replace (S (ticks c + k)) with (ticks c + S k)%nat by lia. }
    destruct (nr <=? read c) eqn:Hle.
    + split; [|split; [|split; [|split]]].
      * constructor; [|exact Hdue'].
        cbn [fst snd]. rewrite Nat.sub_diag, Nat.add_0_r.
        split; [exact Hj|]. exists nr.
        repeat split; [exact Hn | lia | now apply Z.leb_le].
      * constructor; [cbn; lia | exact Hge'].
      * cbn. constructor; [|exact Hnd].
        intros Hin. apply list_elem_of_fmap in Hin as (x & Hx & Hin).
        rewrite Forall_forall in Hge. specialize (Hge x Hin).
        cbn in Hx. lia.
      * exact Hsome'.
      * intros [|k] j0 t Hk Hn0 Hle0.
        -- injection Hk as <-. rewrite Nat.add_0_r. now left.
        -- right. now apply (Hrest k j0 t).
    + split; [|split; [|split; [|split]]]; try assumption.
      intros [|k] j0 t Hk Hn0 Hle0.
      * injection Hk as <-. rewrite Nat.add_0_r in Hle0.
        assert (t = nr) by congruence. subst t.
        apply Z.leb_gt in Hle. unfold read in Hle. lia.
      * now apply (Hrest k j0 t).
Qed.

Lemma pending_inv (s s' : Scheduler.t) (c c' : Clock)
      (r : Res (list (nat * Job.t))) :
  Scheduler.pending s c = (r, s', c') ->
  s' = s
  /\ match r with
     | Raise e => e = TypeError
     | Ok order =>
         Forall (was_due s c c') order /\ NoDup (map fst order)
         /\ Forall (fun j => Job.next_run j <> None) (Scheduler.jobs s)
         /\ (forall k j t,
               Scheduler.jobs s !! k = Some j -> Job.next_run j = Some t ->
               t <= readings c (ticks c + k)%nat -> (k, j) ∈ order)
     end.
Proof.
  unfold Scheduler.pending. unfold_m. intros H.
  destruct (Scheduler.all_jobs 0 (Scheduler.jobs s) s c)
    as [[r1 s1] c1] eqn:E.
  apply all_jobs_inv in E; [|intros k j Hk; exact Hk].
  destruct E as [-> E].
  destruct r1 as [due|e]; [|injection H as <- <- <-; now split].
  destruct E as (Hdue & _ & Hnd & Hsome & Hall).
  assert (Hdue0 : Forall (was_due s c c1) due).
  { eapply Forall_impl; [exact Hdue|]. intros x.
    unfold was_due. now rewrite Nat.sub_0_r. }
  clear Hdue.
  destruct (Builtins.sorted Scheduler.lt_job due) as [order|e] eqn:Es;
    injection H as <- <- <-.
  - apply sorted_perm in Es. split; [reflexivity|]. rewrite Es.
    repeat split; try assumption.
    intros k j t Hk Hn Hle. rewrite Es. exact (Hall k j t Hk Hn Hle).
  - split; [reflexivity|].
    eapply (sorted_raises _ (fun e => e = TypeError)); [|exact Es].
    apply lt_job_raises.
Qed.

End Registry.

(** The loops of [run_pending] and [run_all] run one job after the other,
    and between two runs do nothing to the registry. *)
Section Loop.

Variable after : M Scheduler.t Datatypes.unit.
Hypothesis after_pure : forall s c, exists r, after s c = (r, s, c).

Let body : nat -> M Scheduler.t Datatypes.unit :=
  fun job => let* _ := Scheduler.on_job job Job.run in after.

Lemma body_frame (i k : nat) (s s' : Scheduler.t) (c c' : Clock)
      (r : Res Datatypes.unit) :
  body i s c = (r, s', c') -> k <> i ->
  Scheduler.jobs s' !! k = Scheduler.jobs s !! k.
Proof.
  unfold body, bind. intros H Hk.
  destruct (Scheduler.on_job i Job.run s c) as [[r1 s1] c1] eqn:E.
  pose proof (on_job_frame _ _ _ _ _ _ _ _ E Hk) as Hf.
  destruct r1 as [v|e].
  - destruct (after_pure s1 c1) as [ra Ha]. rewrite Ha in H.
    now injection H as <- <- <-.
  - now injection H as <- <- <-.
Qed.

Lemma for_each_frame (order : list nat) :
  forall s c r s' c' k,
    Scheduler.for_each order body s c = (r, s', c') -> k ∉ order ->
    Scheduler.jobs s' !! k = Scheduler.jobs s !! k.
Proof.
  induction order as [|i order IH]; intros s c r s' c' k H Hk.
  - cbn in H. unfold_m. now injection H as <- <- <-.
  - cbn [Scheduler.for_each] in H. unfold bind at 1 in H.
    apply not_elem_of_cons in Hk as [Hki Hk].
    destruct (body i s c) as [[r1 s1] c1] eqn:E.
    pose proof (body_frame _ _ _ _ _ _ _ E Hki) as Hf.
    destruct r1 as [v|e].
    + rewrite (IH _ _ _ _ _ _ H Hk). exact Hf.
    + now injection H as <- <- <-.
Qed.

Lemma for_each_app (pre post : list nat) (s : Scheduler.t) (c : Clock) :
  Scheduler.for_each (pre ++ post) body s c
  = match Scheduler.for_each pre body s c with
    | (Ok _, s1, c1) => Scheduler.for_each post body s1 c1
    | (Raise e, s1, c1) => (Raise e, s1, c1)
    end.
Proof.
  revert s c. induction pre as [|i pre IH]; intros s c; [reflexivity|].
  cbn [app Scheduler.for_each]. unfold bind at 1 2.
  destruct (body i s c) as [[[v|e] s1] c1]; [apply IH | reflexivity].
Qed.

(** The job that the loop reaches after the jobs [pre] is run as it stood
    before the loop, and keeps the state in which its run leaves it. *)
Lemma for_each_at (pre post : list nat) (i : nat) (s s1 : Scheduler.t)
      (c c1 c2 : Clock) (j j' : Job.t) (r : Res Z) :
  NoDup (pre ++ i :: post) ->
  Scheduler.for_each pre body s c = (Ok tt, s1, c1) ->
  Scheduler.jobs s !! i = Some j ->
  Job.run j c1 = (r, j', c2) ->
  Scheduler.jobs s1 !! i = Some j
  /\ exists r' s' c',
    Scheduler.for_each (pre ++ i :: post) body s c = (r', s', c')
    /\ Scheduler.jobs s' !! i = Some j'
    /\ (forall e, r = Raise e ->
          r' = Raise e /\ c' = c2
          /\ s' = Scheduler.mk (<[i := j']> (Scheduler.jobs s1))).
Proof.
  intros Hnd Hpre Hj Hrun.
  apply NoDup_app in Hnd as (_ & Hdisj & Hnd).
  apply NoDup_cons in Hnd as [Hpost _].
  assert (Hpre_i : i ∉ pre).
  { intros Hin. apply (Hdisj i Hin). now left. }
  assert (Hj1 : Scheduler.jobs s1 !! i = Some j).
  { rewrite (for_each_frame _ _ _ _ _ _ _ Hpre Hpre_i). exact Hj. }
  split; [exact Hj1|].
  rewrite for_each_app, Hpre. cbn [Scheduler.for_each].
  unfold bind at 1. unfold body at 1. unfold bind at 1.
  rewrite (on_job_at _ _ _ _ j Hj1), Hrun.
  assert (Hj' : Scheduler.jobs (Scheduler.mk (<[i := j']> (Scheduler.jobs s1)))
                !! i = Some j').
  { cbn. apply list_lookup_insert_eq. now apply lookup_lt_Some in Hj1. }
  destruct r as [v|e].
  - destruct (after_pure (Scheduler.mk (<[i := j']> (Scheduler.jobs s1))) c2)
      as [[[]|ea] Ha]; rewrite Ha.
    + destruct (Scheduler.for_each post body _ c2) as [[r' s'] c'] eqn:E.
      exists r', s', c'. split; [reflexivity|]. split; [|discriminate].
      rewrite (for_each_frame _ _ _ _ _ _ _ E Hpost). exact Hj'.
    + eexists _, _, _. split; [reflexivity|]. split; [exact Hj'|discriminate].
  - eexists _, _, _. split; [reflexivity|]. split; [exact Hj'|].
    intros e' [= <-]. now repeat split.
Qed.

End Loop.

Lemma ret_pure (s : Scheduler.t) (c : Clock) :
  exists r, ret (S := Scheduler.t) tt s c = (r, s, c).
Proof. now exists (Ok tt). Qed.

Lemma sleep_pure (secs : Z) (s : Scheduler.t) (c : Clock) :
  exists r, Scheduler.sleep secs s c = (r, s, c).
Proof.
  unfold Scheduler.sleep.
  destruct (_ || _); [|destruct (secs <? 0); [|destruct (secs <=? _)]];
    unfold_m; eauto.
Qed.

Lemma steady_pending : steady Scheduler.pending.
Proof.
  unfold Scheduler.pending. apply steady_bind; [apply steady_get | intros self].
  apply steady_bind; [apply steady_all_jobs | intros due]. apply steady_lift.
Qed.

Lemma steady_run_then (after : M Scheduler.t Datatypes.unit) (i : nat) :
  steady after ->
  steady (let* _ := Scheduler.on_job i Job.run in after).
Proof.
  intros Ha. apply steady_bind; [apply steady_on_job, steady_run | intros _; exact Ha].
Qed.

Lemma monotone_readings (c c' : Clock) :
  readings c' = readings c -> monotone c -> monotone c'.
Proof. unfold monotone. intros ->. auto. Qed.

(** An entry of the due list whose place is [i] holds the job at [i]. *)
Lemma due_entry (s : Scheduler.t) (c c1 : Clock) (order : list (nat * Job.t))
      (i : nat) (j : Job.t) :
  Forall (was_due s c c1) order -> i ∈ map fst order ->
  Scheduler.jobs s !! i = Some j ->
  exists t n, Job.next_run j = Some t
              /\ (ticks c <= n < ticks c1)%nat /\ t <= readings c n.
Proof.
  intros Hdue Hin Hj. apply list_elem_of_fmap in Hin as (x & -> & Hx).
  rewrite Forall_forall in Hdue. destruct (Hdue x Hx) as (Hx1 & t & Ht & Hb & Hle).
  rewrite Hj in Hx1. injection Hx1 as ->.
  exists t, (ticks c + x.1)%nat. repeat split; [exact Ht | lia | exact Hb | exact Hle].
Qed.


Section ActionFails.

Variables (s : Scheduler.t) (c : Clock) (i : nat) (j : Job.t)
          (f : Action) (e : Z).

Hypothesis registered : Scheduler.jobs s !! i = Some j.
Hypothesis action : Job.job_func j = Some f.



End ActionFails.

Section Unfinalized.

Lemma lt_none_l (x y : Job.t) :
  Job.next_run x = None -> Job.__lt__ x y = Raise TypeError.
Proof. unfold Job.__lt__. now intros ->. Qed.

Lemma lt_none_r (x y : Job.t) :
  Job.next_run y = None -> Job.__lt__ x y = Raise TypeError.
Proof. unfold Job.__lt__. intros ->. now destruct (Job.next_run x). Qed.

Lemma min_from_none (l : list Job.t) :
  forall best,
    (Job.next_run best = None /\ l <> [])
    \/ (exists j, j ∈ l /\ Job.next_run j = None) ->
    Builtins.min_from Job.__lt__ best l = Raise TypeError.
Proof.
  induction l as [|x l IH]; intros best H.
  - destruct H as [[_ H]|(j & Hj & _)]; [congruence|].
    now apply elem_of_nil in Hj.
  - cbn [Builtins.min_from].
    destruct (Job.next_run x) as [a|] eqn:Hx;
      [|now rewrite (lt_none_l _ _ Hx)].
    destruct (Job.next_run best) as [b|] eqn:Hb;
      [|now rewrite (lt_none_r _ _ Hb)].
    unfold Job.__lt__ at 1. rewrite Hx, Hb. cbn.
    apply IH. right. destruct H as [[H _]|(j & Hj & Hn)]; [congruence|].
    apply elem_of_cons in Hj as [->|Hj]; [congruence|eauto].
Qed.

Variables (s : Scheduler.t) (c : Clock) (k : nat) (j : Job.t).

Hypothesis registered : Scheduler.jobs s !! k = Some j.
Hypothesis unfinalized : Job.next_run j = None.

Lemma run_pending_unfinalized :
  exists c', Scheduler.run_pending s c = (Raise TypeError, s, c').
Proof.
  unfold Scheduler.run_pending, bind.
  destruct (Scheduler.pending s c) as [[r s'] c'] eqn:E.
  pose proof (pending_inv _ _ _ _ _ E) as [-> H].
  destruct r as [order|e].
  - destruct H as (_ & _ & Hsome & _). exfalso.
    rewrite Forall_forall in Hsome.
    apply (Hsome j); [|exact unfinalized].
    apply list_elem_of_lookup. eauto.
  - subst e. eauto.
Qed.

Lemma next_run_unfinalized :
  (2 <= length (Scheduler.jobs s))%nat ->
  Scheduler.next_run s c = (Raise TypeError, s, c).
Proof.
  intros Hlen. unfold Scheduler.next_run. unfold_m.
  destruct (Scheduler.jobs s) as [|first rest] eqn:Hjobs; [cbn in Hlen; lia|].
  cbn [Builtins.min].
  rewrite min_from_none; [reflexivity|].
  destruct k as [|k'].
  - left. cbn in registered. injection registered as ->.
    split; [exact unfinalized|]. destruct rest; [cbn in Hlen; lia | discriminate].
  - right. exists j. split; [|exact unfinalized].
    apply list_elem_of_lookup. exists k'. exact registered.
Qed.

Lemma next_run_single_unfinalized :
  length (Scheduler.jobs s) = 1%nat ->
  Scheduler.next_run s c = (Ok None, s, c).
Proof.
  intros Hlen. unfold Scheduler.next_run. unfold_m.
  destruct (Scheduler.jobs s) as [|first [|second rest]] eqn:Hjobs;
    try discriminate.
  destruct k as [|k']; [|discriminate].
  cbn in registered. injection registered as ->.
  cbn. now rewrite unfinalized.
Qed.

End Unfinalized.

Lemma pending_two_ties (j1 j2 : Job.t) (t : Z) (c : Clock) :
  Job.next_run j1 = Some t -> Job.next_run j2 = Some t ->
  t <= read c -> t <= read (advance c) ->
  Scheduler.pending (Scheduler.mk [j1; j2]) c
  = (Ok [(1%nat, j2); (0%nat, j1)], Scheduler.mk [j1; j2], advance (advance c)).
Proof.
  intros H1 H2 Hc1 Hc2. apply Z.leb_le in Hc1, Hc2.
  unfold Scheduler.pending, bind, get. cbn [Scheduler.jobs Scheduler.all_jobs].
  unfold bind.
  rewrite (on_job_should_run 0 (Scheduler.mk [j1; j2]) c j1 eq_refl), H1.
  rewrite (on_job_should_run 1 (Scheduler.mk [j1; j2]) (advance c) j2 eq_refl), H2.
  rewrite Hc1, Hc2. unfold ret, lift.
  unfold Builtins.sorted. cbn [length Nat.ltb Nat.leb].
  unfold Builtins.count_run, Scheduler.lt_job, Job.__lt__. cbn [snd].
  rewrite H1, H2. rewrite Z.leb_refl. reflexivity.
Qed.

(** ** The order in which [sorted] leaves jobs compared with [<=] *)

Section SortOrder.

Context {A : Type} (lt : A -> A -> Res bool).
Variables (key : A -> Z) (idx : A -> nat) (good : A -> Prop).

(** On the items at hand [x < y] answers [key x <= key y]. *)
Hypothesis lt_key :
  forall x y, good x -> good y -> lt x y = Ok (key x <=? key y).

Let R := later_first key idx.
Let by_idx := fun x y : A => (idx x < idx y)%nat.
Let falling := fun x y : A => key y <= key x.
Let rising := fun x y : A => key x < key y.

Lemma StronglySorted_lookup (P : A -> A -> Prop) (l : list A) :
  StronglySorted P l ->
  forall i j x y, (i < j)%nat -> l !! i = Some x -> l !! j = Some y -> P x y.
Proof.
  induction 1 as [|a l Hl IH Ha]; intros i j x y Hij Hi Hj.
  - discriminate.
  - destruct j as [|j]; [lia|]. cbn in Hj. destruct i as [|i].
    + cbn in Hi. injection Hi as <-.
      rewrite Forall_forall in Ha. apply Ha.
      apply list_elem_of_lookup. eauto.
    + cbn in Hi. apply (IH i j); [lia | assumption | assumption].
Qed.

Lemma StronglySorted_impl (P Q : A -> A -> Prop) (l : list A) :
  (forall x y, x ∈ l -> y ∈ l -> P x y -> Q x y) ->
  StronglySorted P l -> StronglySorted Q l.
Proof.
  intros HPQ H. induction H as [|a l Hl IH Ha]; constructor.
  - apply IH. intros x y Hx Hy. apply HPQ; now right.
  - rewrite Forall_forall in *. intros y Hy.
    apply HPQ; [now left | now right | now apply Ha].
Qed.

Lemma StronglySorted_both (P Q : A -> A -> Prop) (l : list A) :
  StronglySorted P l -> StronglySorted Q l ->
  StronglySorted (fun x y => P x y /\ Q x y) l.
Proof.
  induction 1 as [|a l Hl IH Ha]; intros HQ; constructor;
    apply StronglySorted_cons in HQ as [Hb HQ].
  - now apply IH.
  - rewrite Forall_forall in *. intros y Hy. split; auto.
Qed.

Lemma StronglySorted_rev (P : A -> A -> Prop) (l : list A) :
  StronglySorted P l -> StronglySorted (flip P) (rev l).
Proof.
  induction 1 as [|a l Hl IH Ha]; cbn; [constructor|].
  apply StronglySorted_app_2; [|exact IH|repeat constructor].
  intros x1 x2 H1 H2. apply list_elem_of_singleton in H2 as ->.
  rewrite Forall_forall in Ha. apply Ha.
  apply list_elem_of_In. apply in_rev. now apply list_elem_of_In.
Qed.

Lemma descending_run_sorted (l : list A) :
  forall prev n,
    good prev -> Forall good l ->
    Builtins.descending_run lt prev l = Ok n ->
    Sorted falling (prev :: take n l).
Proof.
  induction l as [|x l IH]; intros prev n Hp Hl; cbn.
  - intros [= <-]. repeat constructor.
  - apply Forall_cons in Hl as [Hx Hl]. rewrite (lt_key x prev Hx Hp). cbn.
    destruct (key x <=? key prev) eqn:E.
    + destruct (Builtins.descending_run lt x l) as [n'|] eqn:E'; cbn;
        [|discriminate].
      intros [= <-]. cbn. constructor; [now apply IH|].
      constructor. now apply Z.leb_le.
    + intros [= <-]. repeat constructor.
Qed.

Lemma ascending_run_sorted (l : list A) :
  forall prev n,
    good prev -> Forall good l ->
    Builtins.ascending_run lt prev l = Ok n ->
    Sorted rising (prev :: take n l).
Proof.
  induction l as [|x l IH]; intros prev n Hp Hl; cbn.
  - intros [= <-]. repeat constructor.
  - apply Forall_cons in Hl as [Hx Hl]. rewrite (lt_key x prev Hx Hp). cbn.
    destruct (key x <=? key prev) eqn:E.
    + intros [= <-]. repeat constructor.
    + destruct (Builtins.ascending_run lt x l) as [n'|] eqn:E'; cbn;
        [|discriminate].
      intros [= <-]. cbn. constructor; [now apply IH|].
      constructor. now apply Z.leb_gt.
Qed.

Lemma count_run_sorted (l : list A) (n : nat) (d : bool) :
  Forall good l ->
  Builtins.count_run lt l = Ok (n, d) ->
  if d then Sorted falling (take n l) else Sorted rising (take n l).
Proof.
  intros Hl. destruct l as [|x [|y l]]; cbn.
  - intros [= <- <-]. constructor.
  - intros [= <- <-]. repeat constructor.
  - apply Forall_cons in Hl as [Hx Hl]. apply Forall_cons in Hl as [Hy Hl].
    rewrite (lt_key y x Hy Hx). cbn.
    destruct (key y <=? key x) eqn:E.
    + destruct (Builtins.descending_run lt y l) as [n'|] eqn:E'; cbn;
        [|discriminate].
      intros [= <- <-]. cbn. constructor.
      * now apply (descending_run_sorted l y n').
      * constructor. now apply Z.leb_le.
    + destruct (Builtins.ascending_run lt y l) as [n'|] eqn:E'; cbn;
        [|discriminate].
      intros [= <- <-]. cbn. constructor.
      * now apply (ascending_run_sorted l y n').
      * constructor. now apply Z.leb_gt.
Qed.

Lemma falling_trans : Transitive falling.
Proof. unfold falling. intros x y z. lia. Qed.

Lemma rising_trans : Transitive rising.
Proof. unfold rising. intros x y z. lia. Qed.

(** The run at the front, once turned round if it falls, is in order. *)
Lemma front_sorted (l : list A) (n : nat) (d : bool) :
  Forall good l -> StronglySorted by_idx l ->
  Builtins.count_run lt l = Ok (n, d) ->
  StronglySorted R (if d then rev (take n l) else take n l).
Proof.
  intros Hl Hidx Hrun. pose proof (count_run_sorted l n d Hl Hrun) as Hs.
  assert (Hi : StronglySorted by_idx (take n l)).
  { rewrite <- (take_drop n l) in Hidx.
    now apply StronglySorted_app_1_l in Hidx. }
  destruct d.
  - apply Sorted_StronglySorted in Hs; [|apply falling_trans].
    pose proof (StronglySorted_rev _ _ (StronglySorted_both _ _ _ Hs Hi)) as H.
    eapply StronglySorted_impl; [|exact H].
    unfold R, later_first, falling, by_idx, flip. intros x y _ _. cbn. lia.
  - apply Sorted_StronglySorted in Hs; [|apply rising_trans].
    eapply StronglySorted_impl; [|exact Hs].
    unfold R, later_first, rising. intros x y _ _. lia.
Qed.

(** [R] lets the keys grow. *)
Lemma later_first_key (x y : A) : R x y -> key x <= key y.
Proof. unfold R, later_first. lia. Qed.

Section Bisect.

Variables (front : list A) (pivot : A).
Hypothesis front_sorted_R : StronglySorted R front.
Hypothesis front_good : Forall good front.
Hypothesis pivot_good : good pivot.

(** Left of [l] the keys are below the pivot's, from [r] on they are
    not. *)
Let narrowed (l r : nat) : Prop :=
  (l <= r <= length front)%nat
  /\ (forall i x, (i < l)%nat -> front !! i = Some x -> key x < key pivot)
  /\ (forall i x, (r <= i)%nat -> front !! i = Some x -> key pivot <= key x).

Lemma bisect_spec (fuel : nat) :
  forall l r pos,
    (r - l <= fuel)%nat -> narrowed l r ->
    Builtins.bisect lt fuel front pivot l r = Ok pos ->
    narrowed pos pos.
Proof.
  induction fuel as [|fuel IH]; intros l r pos Hfuel (Hlr & Hlow & Hhigh);
    cbn [Builtins.bisect].
  - intros [= <-]. assert (r = l) by lia. subst r. now repeat split.
  - destruct (l <? r)%nat eqn:Hcmp.
    2:{ intros [= <-]. apply Nat.ltb_ge in Hcmp.
        assert (r = l) by lia. subst r. now repeat split. }
    apply Nat.ltb_lt in Hcmp.
    assert (Hp : (l <= l + (r - l) / 2 < r)%nat).
    { pose proof (Nat.Div0.div_lt_upper_bound (r - l) 2 (r - l)). lia. }
    set (p := (l + (r - l) / 2)%nat) in *.
    destruct (lookup_lt_is_Some_2 front p ltac:(lia)) as [x Hx].
    rewrite Hx.
    assert (Hgx : good x).
    { rewrite Forall_forall in front_good. apply front_good.
      apply list_elem_of_lookup. eauto. }
    rewrite (lt_key pivot x pivot_good Hgx). cbn.
    destruct (key pivot <=? key x) eqn:E.
    + apply IH; [lia|]. split; [lia|]. split; [exact Hlow|].
      intros i y Hi Hy. apply Z.leb_le in E.
      destruct (decide (i = p)) as [->|Hne].
      * rewrite Hx in Hy. injection Hy as <-. exact E.
      * pose proof (StronglySorted_lookup R front front_sorted_R
                      p i x y ltac:(lia) Hx Hy) as HR.
        apply later_first_key in HR. lia.
    + apply IH; [lia|]. split; [lia|]. split; [|exact Hhigh].
      intros i y Hi Hy. apply Z.leb_gt in E.
      destruct (decide (i = p)) as [->|Hne].
      * rewrite Hx in Hy. injection Hy as <-. exact E.
      * pose proof (StronglySorted_lookup R front front_sorted_R
                      i p y x ltac:(lia) Hy Hx) as HR.
        apply later_first_key in HR. lia.
Qed.

(** The pivot, which came after all of [front], goes in at [pos]. *)
Lemma insert_sorted (pos : nat) :
  Forall (fun x => by_idx x pivot) front ->
  narrowed pos pos ->
  StronglySorted R (take pos front ++ pivot :: drop pos front).
Proof.
  intros Hidx (Hpos & Hlow & Hhigh).
  pose proof front_sorted_R as Hs. rewrite <- (take_drop pos front) in Hs.
  apply StronglySorted_app in Hs as (Hcross & Hs1 & Hs2).
  assert (Hbelow : forall x, x ∈ take pos front -> key x < key pivot).
  { intros x Hx. apply list_elem_of_lookup in Hx as [i Hi].
    pose proof (lookup_lt_Some _ _ _ Hi) as Hlen.
    rewrite length_take in Hlen.
    rewrite lookup_take_lt in Hi by lia. apply (Hlow i x); [lia|exact Hi]. }
  assert (Habove : forall x, x ∈ drop pos front -> R pivot x).
  { intros x Hx. pose proof Hx as Hx'.
    apply list_elem_of_lookup in Hx as [i Hi]. rewrite lookup_drop in Hi.
    pose proof (Hhigh (pos + i)%nat x ltac:(lia) Hi) as Hk.
    rewrite Forall_forall in Hidx.
    assert (Hin : x ∈ front).
    { apply list_elem_of_lookup. eauto. }
    specialize (Hidx x Hin). unfold R, later_first, by_idx in *. lia. }
  apply StronglySorted_app_2; [|exact Hs1|].
  - intros x1 x2 H1 H2. apply elem_of_cons in H2 as [->|H2].
    + left. now apply Hbelow.
    + now apply Hcross.
  - constructor; [exact Hs2|]. rewrite Forall_forall. exact Habove.
Qed.

End Bisect.

Lemma binarysort_sorted (rest : list A) :
  forall front l',
    StronglySorted R front -> Forall good front -> Forall good rest ->
    StronglySorted by_idx rest ->
    (forall x y, x ∈ front -> y ∈ rest -> by_idx x y) ->
    Builtins.binarysort lt front rest = Ok l' ->
    StronglySorted R l'.
Proof.
  induction rest as [|pivot rest IH];
    intros front l' Hs Hgf Hgr Hir Hcross; cbn [Builtins.binarysort].
  - now intros [= <-].
  - apply Forall_cons in Hgr as [Hgp Hgr].
    apply StronglySorted_cons in Hir as [Hip Hir].
    destruct (Builtins.bisect lt _ front pivot 0 _) as [pos|e] eqn:E; cbn;
      [|discriminate].
    assert (Hnarrow : (pos <= pos <= length front)%nat
              /\ (forall i x, (i < pos)%nat -> front !! i = Some x ->
                               key x < key pivot)
              /\ (forall i x, (pos <= i)%nat -> front !! i = Some x ->
                               key pivot <= key x)).
    { apply (bisect_spec front pivot Hs Hgf Hgp (length front) 0
               (length front) pos ltac:(lia)) in E; [exact E|].
      split; [lia|]. split; [intros i x Hi; lia|].
      intros i x Hi Hx. apply lookup_lt_Some in Hx. lia. }
    apply IH; try assumption.
    + apply (insert_sorted front pivot Hs); [|exact Hnarrow].
      rewrite Forall_forall. intros x Hx. apply Hcross; [exact Hx | now left].
    + apply Forall_app. split; [now apply Forall_take|].
      constructor; [exact Hgp | now apply Forall_drop].
    + intros x y Hx Hy. apply elem_of_app in Hx as [Hx|Hx].
      * apply Hcross; [|now right]. now apply elem_of_take in Hx as (i & Hx & _);
          apply list_elem_of_lookup; eauto.
      * apply elem_of_cons in Hx as [->|Hx].
        -- rewrite Forall_forall in Hip. now apply Hip.
        -- apply Hcross; [|now right].
           apply list_elem_of_lookup in Hx as [i Hi]. rewrite lookup_drop in Hi.
           apply list_elem_of_lookup. eauto.
Qed.

(** [sorted] with [<=] for [<]: the keys grow, and of two items with the
    same key the one that came later in the input comes first. *)
Lemma sorted_later_first (l l' : list A) :
  Forall good l -> StronglySorted by_idx l ->
  Builtins.sorted lt l = Ok l' ->
  StronglySorted R l'.
Proof.
  intros Hg Hi. unfold Builtins.sorted.
  destruct (length l <? 2)%nat eqn:Hlen.
  - intros [= <-]. apply Nat.ltb_lt in Hlen.
    destruct l as [|x [|y l]]; [constructor | repeat constructor|].
    cbn in Hlen. lia.
  - destruct (Builtins.count_run lt l) as [[n d]|e] eqn:E; cbn; [|discriminate].
    pose proof (front_sorted l n d Hg Hi E) as Hfront.
    pose proof Hi as Hi'. rewrite <- (take_drop n l) in Hi'.
    apply StronglySorted_app in Hi' as (Hcross & _ & Hrest).
    pose proof Hg as Hg'. rewrite <- (take_drop n l) in Hg'.
    apply Forall_app in Hg' as [Hg1 Hg2].
    apply binarysort_sorted; try assumption.
    + destruct d; [|exact Hg1]. rewrite Forall_forall in *.
      intros x Hx. apply Hg1. apply list_elem_of_In. apply in_rev.
      now apply list_elem_of_In.
    + intros x y Hx Hy. apply Hcross; [|exact Hy].
      destruct d; [|exact Hx]. apply list_elem_of_In. apply in_rev.
      now apply list_elem_of_In.
Qed.

End SortOrder.

Section PendingOrder.

Lemma all_jobs_ordered (js : list Job.t) :
  forall i s c due s' c',
    (forall k j, js !! k = Some j -> Scheduler.jobs s !! (i + k)%nat = Some j) ->
    Scheduler.all_jobs i js s c = (Ok due, s', c') ->
    Forall (fun x => (i <= x.1)%nat) due
    /\ StronglySorted (fun x y : nat * Job.t => (x.1 < y.1)%nat) due.
Proof.
  induction js as [|j js IH]; intros i s c due s' c' Hjs H.
  - cbn in H. unfold_m. injection H as <- <- <-. split; constructor.
  - cbn [Scheduler.all_jobs] in H. unfold bind at 1 in H.
    assert (Hj : Scheduler.jobs s !! i = Some j).
    { rewrite <- (Nat.add_0_r i). now apply Hjs. }
    rewrite (on_job_should_run _ _ _ _ Hj) in H.
    destruct (Job.next_run j) as [nr|]; [|discriminate].
    unfold bind at 1 in H.
    destruct (Scheduler.all_jobs (S i) js s (advance c))
      as [[[rest|e] s1] c1] eqn:E; [|discriminate].
    apply IH in E.
    2:{ intros k j0 Hk. replace (S i + k)%nat with (i + S k)%nat by lia.
        now apply Hjs. }
    destruct E as [Hge Hs]. unfold_m. injection H as <- <- <-.
    assert (Hgt : Forall (fun x : nat * Job.t => (i < x.1)%nat) rest).
    { eapply Forall_impl; [exact Hge|]. cbn. intros x Hx. lia. }
    assert (Hge' : Forall (fun x : nat * Job.t => (i <= x.1)%nat) rest).
    { eapply Forall_impl; [exact Hge|]. cbn. intros x Hx. lia. }
    destruct (nr <=? read c).
    + split; constructor; cbn; try assumption. lia.
    + now split.
Qed.

Lemma lt_job_key (x y : nat * Job.t) :
  Job.next_run x.2 <> None -> Job.next_run y.2 <> None ->
  Scheduler.lt_job x y = Ok (next_run_key x <=? next_run_key y).
Proof.
  unfold Scheduler.lt_job, Job.__lt__, next_run_key. cbn.
  destruct (Job.next_run x.2), (Job.next_run y.2); congruence.
Qed.

(** The due jobs come out with their next runs growing, and of two jobs
    with the same next run the one registered later first. *)
Lemma pending_order (s s' : Scheduler.t) (c c' : Clock)
      (order : list (nat * Job.t)) :
  Scheduler.pending s c = (Ok order, s', c') ->
  StronglySorted (later_first next_run_key fst) order.
Proof.
  unfold Scheduler.pending. unfold_m. intros H.
  destruct (Scheduler.all_jobs 0 (Scheduler.jobs s) s c)
    as [[[due|e] s1] c1] eqn:E; [|discriminate].
  pose proof (all_jobs_inv (Scheduler.jobs s) 0 s c _ _ _
                (fun k j Hk => Hk) E)
    as (_ & Hdue & _).
  pose proof (all_jobs_ordered (Scheduler.jobs s) 0 s c _ _ _
                (fun k j Hk => Hk) E)
    as (_ & Hsorted).
  destruct (Builtins.sorted Scheduler.lt_job due) as [order'|e] eqn:Es;
    [|discriminate].
  injection H as <- <- <-.
  apply (sorted_later_first Scheduler.lt_job next_run_key fst
           (fun x => Job.next_run x.2 <> None) lt_job_key due);
    [|exact Hsorted|exact Es].
  eapply Forall_impl; [exact Hdue|].
  intros x (_ & t & Ht & _). congruence.
Qed.

End PendingOrder.

(** * The claims *)

Ltac in_range := unfold_time; lia.

(** ** C1: the order of the due jobs *)

(** C1 (the code departs from it).  The due jobs are to come out ordered by
    next run, two jobs with the same next run in the order of their
    registration.  The selection holds the due jobs, all of them and no
    other, with their next runs growing; but [Job.__lt__] answers [<=], so
    [sorted] takes equal jobs for a descending run and puts a job in front
    of its equals: of two due jobs with the same next run the one
    registered later comes first.  (Fewer than 64 jobs: the part of the
    list sort that is modelled.) *)
Theorem pending_reverses_ties
        (s : Scheduler.t) (c c' : Clock) (order : list (nat * Job.t)) :
  (length (Scheduler.jobs s) < 64)%nat ->
  Scheduler.pending s c = (Ok order, s, c') ->
  Forall (was_due s c c') order
  /\ (forall k j t,
        Scheduler.jobs s !! k = Some j -> Job.next_run j = Some t ->
        t <= readings c (ticks c + k)%nat -> (k, j) ∈ order)
  /\ (forall p q x y a b,
        (p < q)%nat -> order !! p = Some x -> order !! q = Some y ->
        Job.next_run x.2 = Some a -> Job.next_run y.2 = Some b -> a <= b)
  /\ (forall p q x y,
        (p < q)%nat -> order !! p = Some x -> order !! q = Some y ->
        Job.next_run x.2 = Job.next_run y.2 -> (y.1 < x.1)%nat).
Proof.
  intros _ H.
  pose proof (pending_inv _ _ _ _ _ H) as (_ & Hdue & _ & _ & Hall).
  pose proof (pending_order _ _ _ _ _ H) as Hs.
  split; [exact Hdue|]. split; [exact Hall|]. split.
  - intros p q x y a b Hpq Hx Hy Ha Hb.
    pose proof (StronglySorted_lookup _ _ Hs p q x y Hpq Hx Hy) as HR.
    unfold later_first, next_run_key in HR. rewrite Ha, Hb in HR. lia.
  - intros p q x y Hpq Hx Hy Heq.
    pose proof (StronglySorted_lookup _ _ Hs p q x y Hpq Hx Hy) as HR.
    unfold later_first, next_run_key in HR. rewrite Heq in HR. lia.
Qed.

Lemma pending_reverses_ties_witness :
  Scheduler.pending (Scheduler.mk [sample_job 1 5; sample_job 2 5]) (frozen 10)
  = (Ok [(1%nat, sample_job 2 5); (0%nat, sample_job 1 5)],
     Scheduler.mk [sample_job 1 5; sample_job 2 5],
     advance (advance (frozen 10)))
  /\ ((0%nat, sample_job 1 5).1 < (1%nat, sample_job 2 5).1)%nat.
Proof.
  split; [reflexivity|].
  refine (proj2 (proj2 (proj2
            (pending_reverses_ties
               (Scheduler.mk [sample_job 1 5; sample_job 2 5]) (frozen 10)
               (advance (advance (frozen 10)))
               [(1%nat, sample_job 2 5); (0%nat, sample_job 1 5)] _ eq_refl)))
            0%nat 1%nat _ _ _ eq_refl eq_refl eq_refl); cbn; lia.
Defined.

(** ** C2: the first run of a daily job with an anchor *)

(** C2 (the code departs from it).  A daily job with an anchor is to get
    its first next run today or tomorrow at the anchor.  The code passes the
    keyword [hours] to [replace], which has no such parameter: scheduling
    such a job raises [TypeError], and leaves the next run one period after
    now, whatever the anchor and the time of day. *)
Theorem days_anchor_raises_type_error (self : Job.t) (c : Clock) (a : Time) :
  Job.unit self = Some Days ->
  Job.at_time self = Some a ->
  Datetime.valid (read c) ->
  Datetime.valid (read c + Job.interval self * Datetime.DAY) ->
  Job._schedule_next_run self c
  = (Raise TypeError,
     Job.set_next_run (Some (read c + Job.interval self * Datetime.DAY))
       (Job.set_period (Some (Job.interval self * Datetime.DAY)) self),
     advance c).
Proof.
  intros Hu Ha Hv Hs. unfold Job._schedule_next_run. unfold_m.
  rewrite Hu. rewrite (timedelta_valid Days _ (read c)) by assumption.
  cbn [unit_duration]. rewrite dt_add_valid by assumption.
  cbn. rewrite Ha. reflexivity.
Qed.

Lemma days_anchor_raises_type_error_witness :
  Job._schedule_next_run (daily_at_nine) (frozen eight_o_clock)
  = (Raise TypeError,
     Job.set_next_run (Some (eight_o_clock + 1 * Datetime.DAY))
       (Job.set_period (Some (1 * Datetime.DAY)) daily_at_nine),
     advance (frozen eight_o_clock)).
Proof.
  apply (days_anchor_raises_type_error daily_at_nine (frozen eight_o_clock)
           (mkTime 9 0)); [reflexivity | reflexivity | | ];
    unfold eight_o_clock, frozen, read; cbn; in_range.
Defined.

(** ** C3: a run moves the next run forward *)

(** C3 (as stated, refuted).  A job whose anchor is set after [do] keeps a
    next run off the anchor: registered at 09:45 as an hourly job, it is due
    at 10:45; given the anchor minute 30 and polled at 10:50, it is run and
    its next run becomes 11:30, less than one period after 10:45. *)
Lemma anchor_set_after_do_counterexample :
  exists s c s' c',
    anchor_after_do Scheduler.__init__ late_anchor_clock = (Ok tt, s, c)
    /\ map Job.next_run (Scheduler.jobs s) = [Some (eight_o_clock + 165 * Datetime.MINUTE)]
    /\ Scheduler.run_pending s c = (Ok tt, s', c')
    /\ map Job.last_run (Scheduler.jobs s') = [Some (eight_o_clock + 170 * Datetime.MINUTE)]
    /\ map Job.next_run (Scheduler.jobs s') = [Some (eight_o_clock + 210 * Datetime.MINUTE)]
    /\ map Job.interval (Scheduler.jobs s') = [1]
    /\ map Job.unit (Scheduler.jobs s') = [Some Hours]
    /\ eight_o_clock + 210 * Datetime.MINUTE
       < eight_o_clock + 165 * Datetime.MINUTE + 1 * unit_duration Hours.
Proof.
  eexists _, _, _, _.
  split; [vm_compute; reflexivity|].
  split; [vm_compute; reflexivity|].
  split; [vm_compute; reflexivity|].
  repeat split; vm_compute; reflexivity.
Qed.

(** C3 (amended).  When a poll runs a due job whose interval is at least 1
    and whose action completes, the job's last run becomes the instant read
    right after the action, and its next run grows; it grows by a full
    period at least when the job is [anchored]: it has no anchor, or is not
    hourly, or its previous next run lies on its anchor.  The clock does not
    go back, and the new next run is an instant a [datetime] can hold. *)
Theorem run_pending_moves_next_run
        (s : Scheduler.t) (c : Clock) (i : nat) (j : Job.t) (u : Unit)
        (f : Action) (v : Z)
        (order : list (nat * Job.t)) (pre post : list nat)
        (s1 : Scheduler.t) (c1 c2 : Clock) :
  Scheduler.jobs s !! i = Some j ->
  Job.unit j = Some u ->
  1 <= Job.interval j ->
  anchor_valid j ->
  Job.job_func j = Some f ->
  Scheduler.pending s c = (Ok order, s, c1) ->
  map fst order = pre ++ i :: post ->
  Scheduler.for_each pre
    (fun job => let* _ := Scheduler.on_job job Job.run in ret tt) s c1
  = (Ok tt, s1, c2) ->
  f (ticks c2) = Returns v ->
  monotone c ->
  Datetime.valid (read (advance c2)) ->
  Datetime.valid (read (advance c2) + Job.interval j * unit_duration u) ->
  exists r s' c' j' t t',
    Scheduler.run_pending s c = (r, s', c')
    /\ Scheduler.jobs s' !! i = Some j'
    /\ Job.last_run j' = Some (read c2)
    /\ Job.next_run j = Some t
    /\ Job.next_run j' = Some t'
    /\ t < t'
    /\ (anchored j -> t + Job.interval j * unit_duration u <= t').
Proof.
  intros registered unit_set interval_positive anchor_ok action selected place
         reached completes clock_monotone clock_valid sum_valid.
  pose proof (pending_inv _ _ _ _ _ selected) as (_ & Hdue & Hnd & _).
  pose proof (steady_pending _ _ _ _ _ selected) as [Hr1 Ht1].
  assert (Hsteady : readings c2 = readings c1 /\ (ticks c1 <= ticks c2)%nat).
  { eapply (steady_for_each pre); [|exact reached].
    intros k. apply steady_run_then, steady_ret. }
  destruct Hsteady as [Hr2 Ht2].
  rewrite place in Hnd.
  assert (Hin : i ∈ map fst order).
  { rewrite place. apply elem_of_app. right. now left. }
  destruct (due_entry _ _ _ _ _ _ Hdue Hin registered)
    as (t & n & Hn & Hb & Hle).
  assert (Hmono : monotone c2).
  { apply (monotone_readings c); [congruence | exact clock_monotone]. }
  assert (Hle2 : t <= readings c2 n) by (rewrite Hr2, Hr1; exact Hle).
  destruct (run_moves_next_run j c2 u f v t unit_set interval_positive
              anchor_ok action completes Hn clock_valid sum_valid n
              Hmono ltac:(lia) Hle2)
    as (r & j' & t' & Hrun & Hl & Hn' & Hlt & Hanch & _).
  destruct (for_each_at (ret tt) ret_pure pre post i s s1 c1 c2 _ j j' r
              Hnd reached registered Hrun)
    as (_ & r' & s' & c' & Hloop & Hj' & _).
  exists r', s', c', j', t, t'. repeat split; try assumption.
  unfold Scheduler.run_pending, bind. rewrite selected, place. exact Hloop.
Qed.

Lemma run_pending_moves_next_run_witness :
  exists r s' c' j' t t',
    Scheduler.run_pending (Scheduler.mk [sample_job 1 5; sample_job 2 7])
      (frozen eight_o_clock) = (r, s', c')
    /\ Scheduler.jobs s' !! 1%nat = Some j'
    /\ Job.last_run j' = Some eight_o_clock
    /\ Job.next_run (sample_job 2 7) = Some t
    /\ Job.next_run j' = Some t'
    /\ t < t'
    /\ (anchored (sample_job 2 7) ->
        t + Job.interval (sample_job 2 7) * unit_duration Seconds <= t').
Proof.
  refine (run_pending_moves_next_run
            (Scheduler.mk [sample_job 1 5; sample_job 2 7])
            (frozen eight_o_clock) 1 (sample_job 2 7) Seconds (returns 0) 0
            [(0%nat, sample_job 1 5); (1%nat, sample_job 2 7)] [0%nat] []
            _ _ _ eq_refl eq_refl _ _ eq_refl eq_refl eq_refl eq_refl eq_refl
            _ _ _).
  - cbn. lia.
  - intros a Ha. discriminate.
  - intros i j _. cbn. lia.
  - vm_compute. split; [discriminate | reflexivity].
  - vm_compute. split; [discriminate | reflexivity].
Defined.

(** ** C4: the next run of a job without an anchor *)

(** C4.  Without an anchor the next run is now plus the interval times the
    duration of the unit, whatever the unit, the interval from 1 on and the
    last run, as long as that instant is one a [datetime] can hold. *)
Theorem next_run_without_anchor (self : Job.t) (c : Clock) (u : Unit) :
  Job.unit self = Some u ->
  Job.at_time self = None ->
  1 <= Job.interval self ->
  Datetime.valid (read c) ->
  Datetime.valid (read c + Job.interval self * unit_duration u) ->
  exists self',
    Job._schedule_next_run self c = (Ok tt, self', advance c)
    /\ Job.next_run self' = Some (read c + Job.interval self * unit_duration u)
    /\ Job.last_run self' = Job.last_run self.
Proof.
  intros Hu Ha _ Hv Hs. unfold Job._schedule_next_run. unfold_m.
  rewrite Hu. rewrite (timedelta_valid u _ (read c)) by assumption.
  rewrite dt_add_valid by assumption. cbn. rewrite Ha.
  eexists. split; [reflexivity|]. split; reflexivity.
Qed.

Lemma next_run_without_anchor_witness :
  exists self',
    Job._schedule_next_run (Job.set_unit (Some Weeks) (Job.__init__ 3))
      (frozen eight_o_clock)
    = (Ok tt, self', advance (frozen eight_o_clock))
    /\ Job.next_run self' = Some (eight_o_clock + 3 * unit_duration Weeks)
    /\ Job.last_run self' = None.
Proof.
  apply (next_run_without_anchor (Job.set_unit (Some Weeks) (Job.__init__ 3))
           (frozen eight_o_clock) Weeks);
    [reflexivity | reflexivity | cbn; lia | | ];
    unfold eight_o_clock, frozen, read; cbn; in_range.
Defined.

(** ** C5: the first run of an hourly job with an anchor *)

(** C5 (as stated, refuted).  The job built by
    [every(2).hours.at("00:30").do(f)] at 10:15 gets the next run 11:30,
    which is not within the current hour. *)
Lemma hourly_anchor_interval_two :
  exists self c,
    every_two_hours_at_half (Job.__init__ 2)
      (frozen (eight_o_clock + 135 * Datetime.MINUTE))
    = (Ok tt, self, c)
    /\ Job.unit self = Some Hours
    /\ Job.at_time self = Some (mkTime 0 30)
    /\ Job.last_run self = None
    /\ Datetime.minute (eight_o_clock + 135 * Datetime.MINUTE) < 30
    /\ Job.next_run self = Some (eight_o_clock + 210 * Datetime.MINUTE)
    /\ Datetime.hour_floor (eight_o_clock + 210 * Datetime.MINUTE)
       <> Datetime.hour_floor (eight_o_clock + 135 * Datetime.MINUTE).
Proof.
  eexists _, _.
  split; [vm_compute; reflexivity|].
  repeat split; vm_compute; congruence.
Qed.

(** C5 (amended).  For an hourly job with interval [k] from 1 on, an anchor
    of minute [m] and no last run: when [m] is greater than the minute of
    now, the next run is the start of the current hour plus [k - 1] hours
    and [m] minutes, with no seconds; for the interval 1 this is the current
    hour at minute [m].  Now is the instant read first; the minute compared
    is that of the second reading. *)
Theorem hourly_anchor_first_run (self : Job.t) (c : Clock) (a : Time) :
  Job.unit self = Some Hours ->
  Job.at_time self = Some a ->
  Job.last_run self = None ->
  0 <= t_minute a <= 59 ->
  1 <= Job.interval self ->
  Datetime.valid (read c) ->
  Datetime.valid (read c + Job.interval self * Datetime.HOUR) ->
  Datetime.minute (read (advance c)) < t_minute a ->
  exists self',
    Job._schedule_next_run self c = (Ok tt, self', advance (advance c))
    /\ Job.next_run self'
       = Some (Datetime.hour_floor (read c)
               + (Job.interval self - 1) * Datetime.HOUR
               + t_minute a * Datetime.MINUTE)
    /\ (Job.interval self = 1 ->
        Job.next_run self'
        = Some (Datetime.hour_floor (read c) + t_minute a * Datetime.MINUTE)).
Proof.
  intros Hu Ha Hl Hm Hk Hv Hs Hlt. unfold Job._schedule_next_run. unfold_m.
  rewrite Hu. rewrite (timedelta_valid Hours _ (read c)) by assumption.
  cbn [unit_duration]. rewrite dt_add_valid by assumption.
  cbn. rewrite Ha. cbn. rewrite replace_anchor_minute by assumption.
  rewrite Hl. cbn.
  assert (Hb : (Datetime.minute (read (advance c)) <? t_minute a) = true)
    by now apply Z.ltb_lt.
  rewrite Hb. rewrite hour_floor_add.
  rewrite dt_sub_valid.
  - eexists. split; [reflexivity|]. cbn.
    split; [f_equal; lia | intros ->; f_equal; lia].
  - pose proof (hour_floor_le (read c)) as Hf.
    assert (0 <= Datetime.hour_floor (read c))
      by (unfold_time; Z.div_mod_to_equations; lia).
    unfold_time. lia.
Qed.

Lemma hourly_anchor_first_run_witness :
  exists self',
    Job._schedule_next_run hourly_at_half
      (frozen (eight_o_clock + 15 * Datetime.MINUTE))
    = (Ok tt, self', advance (advance (frozen (eight_o_clock + 15 * Datetime.MINUTE))))
    /\ Job.next_run self'
       = Some (Datetime.hour_floor (read (frozen (eight_o_clock + 15 * Datetime.MINUTE)))
               + (Job.interval hourly_at_half - 1) * Datetime.HOUR
               + t_minute (mkTime 0 30) * Datetime.MINUTE)
    /\ (Job.interval hourly_at_half = 1 ->
        Job.next_run self'
        = Some (Datetime.hour_floor (read (frozen (eight_o_clock + 15 * Datetime.MINUTE)))
                + t_minute (mkTime 0 30) * Datetime.MINUTE)).
Proof.
  apply (hourly_anchor_first_run hourly_at_half
           (frozen (eight_o_clock + 15 * Datetime.MINUTE)) (mkTime 0 30));
    [reflexivity | reflexivity | reflexivity | cbn; lia | cbn; lia | | | ].
  - vm_compute. split; [discriminate | reflexivity].
  - vm_compute. split; [discriminate | reflexivity].
  - vm_compute. reflexivity.
Defined.

(** ** C6: the anchor of an hourly job *)

(** C6 (as stated, refuted).  On an hourly job [at("05:30")] is accepted:
    the hour 5 is not rejected, the anchor becomes 00:30. *)
Lemma at_hours_accepts_nonzero_hour :
  Py.int "05" = Ok 5
  /\ Job.at_ "05:30" (Job.set_unit (Some Hours) (Job.__init__ 1)) (frozen 0)
     = (Ok tt,
        Job.set_at_time (Some (mkTime 0 30))
          (Job.set_unit (Some Hours) (Job.__init__ 1)),
        frozen 0).
Proof. split; reflexivity. Qed.

(** C6 (amended).  On an hourly job the text before the colon is not read
    at all: no hour is ever rejected, and the hour of the anchor is 0.  The
    text after the colon, ASCII text here, has to be an integer as [int]
    reads one, or [int] raises [ValueError]; a minute outside 0 to 59
    raises the minute-out-of-range error; either way the job is left as it
    was. *)
Theorem at_hours_ignores_hour (self : Job.t) (c : Clock) (hh mm : string) :
  Job.unit self = Some Hours ->
  Py.contains ":" hh = false -> Py.contains ":" mm = false ->
  ascii_text mm = true ->
  Job.at_ (hh ++ ":" ++ mm) self c =
    match Py.int mm with
    | Raise e => (Raise e, self, c)
    | Ok m =>
        if (0 <=? m) && (m <=? 59)
        then (Ok tt, Job.set_at_time (Some (mkTime 0 m)) self, c)
        else (Raise (SchedulerValueError minute_wrong), self, c)
    end.
Proof.
  intros Hu Hh Hm _. unfold Job.at_. unfold_m. rewrite Hu.
  rewrite split_hh_mm by assumption.
  destruct (Py.int mm) as [m|e]; [|reflexivity].
  destruct ((0 <=? m) && (m <=? 59)) eqn:Hr; cbn; [|reflexivity].
  unfold Py.time. cbn. rewrite Hr. reflexivity.
Qed.

Lemma at_hours_ignores_hour_witness :
  Job.at_ "23:60" (Job.set_unit (Some Hours) (Job.__init__ 1)) (frozen 0)
  = (Raise (SchedulerValueError minute_wrong),
     Job.set_unit (Some Hours) (Job.__init__ 1), frozen 0).
Proof.
  exact (at_hours_ignores_hour (Job.set_unit (Some Hours) (Job.__init__ 1))
           (frozen 0) "23" "60" eq_refl eq_refl eq_refl eq_refl).
Defined.

(** ** C7: [do] on a job without a unit *)

(** C7 (the code departs from it).  [do] on a job whose unit was never set
    raises the unset-unit error, but only after the action has been bound:
    the job is not left unchanged. *)
Theorem do_without_unit_binds_action (self : Job.t) (c : Clock) (f : Action) :
  Job.unit self = None ->
  Job.do f self c
  = (Raise (SchedulerValueError scheduler_value_error),
     Job.set_job_func (Some f) self, c)
  /\ Job.job_func (Job.set_job_func (Some f) self) = Some f.
Proof.
  intros Hu. split; [|reflexivity].
  unfold Job.do, Job._schedule_next_run. unfold_m. cbn.
  rewrite Hu. reflexivity.
Qed.

Lemma do_without_unit_binds_action_witness :
  Job.do (returns 0) (Job.__init__ 1) (frozen 0)
  = (Raise (SchedulerValueError scheduler_value_error),
     Job.set_job_func (Some (returns 0)) (Job.__init__ 1), frozen 0)
  /\ Job.job_func (Job.set_job_func (Some (returns 0)) (Job.__init__ 1))
     = Some (returns 0).
Proof.
  exact (do_without_unit_binds_action (Job.__init__ 1) (frozen 0) (returns 0)
           eq_refl).
Defined.

(** ** C8: an action that raises *)



(** ** C9: the queries on an empty registry *)

(** C9.  On an empty registry [next_run] returns [None], and
    [idle_seconds] raises [TypeError] on subtracting the clock reading from
    that [None]: no duration comes back. *)
Theorem empty_registry_queries (c : Clock) :
  Scheduler.next_run (Scheduler.mk []) c = (Ok None, Scheduler.mk [], c)
  /\ Scheduler.idle_seconds (Scheduler.mk []) c
     = (Raise TypeError, Scheduler.mk [], advance c).
Proof. split; reflexivity. Qed.

(** ** C10: a job that was never finalized *)

(** C10 (as stated, refuted).  After [every(1)] alone the registry holds
    one job without a next run, and [next_run] returns [None]: [min] of a
    single job compares nothing, and no [TypeError] is raised. *)
Lemma single_unfinalized_job_next_run :
  exists s c j,
    Scheduler.every 1 Scheduler.__init__ (frozen 0) = (Ok 0%nat, s, c)
    /\ Scheduler.jobs s !! 0%nat = Some j
    /\ Job.next_run j = None
    /\ Scheduler.next_run s c = (Ok None, s, c).
Proof. eexists _, _, _. repeat split; reflexivity. Qed.

(** C10 (amended).  [every] appends the job before any configuration, with
    no next run.  While the registry holds a job without a next run,
    [run_pending] raises [TypeError] on the due check and runs no job;
    [next_run] raises [TypeError] when the registry holds two jobs or more,
    and returns [None] when that job is the only one. *)
Theorem unfinalized_job_breaks_polling
        (s : Scheduler.t) (c : Clock) (k : nat) (j : Job.t) :
  Scheduler.jobs s !! k = Some j ->
  Job.next_run j = None ->
  (forall interval,
      Scheduler.every interval s c
      = (Ok (length (Scheduler.jobs s)),
         Scheduler.mk (Scheduler.jobs s ++ [Job.__init__ interval]), c)
      /\ Job.next_run (Job.__init__ interval) = None)
  /\ (exists c', Scheduler.run_pending s c = (Raise TypeError, s, c'))
  /\ ((2 <= length (Scheduler.jobs s))%nat ->
      Scheduler.next_run s c = (Raise TypeError, s, c))
  /\ (length (Scheduler.jobs s) = 1%nat ->
      Scheduler.next_run s c = (Ok None, s, c)).
Proof.
  intros Hj Hn. split; [intros interval; split; reflexivity|].
  split; [exact (run_pending_unfinalized s c k j Hj Hn)|].
  split; [exact (next_run_unfinalized s c k j Hj Hn)|].
  exact (next_run_single_unfinalized s c k j Hj Hn).
Qed.

Lemma unfinalized_job_breaks_polling_witness :
  (exists c', Scheduler.run_pending (Scheduler.mk [sample_job 1 5; Job.__init__ 1])
                (frozen 10)
              = (Raise TypeError, Scheduler.mk [sample_job 1 5; Job.__init__ 1], c'))
  /\ Scheduler.next_run (Scheduler.mk [sample_job 1 5; Job.__init__ 1]) (frozen 10)
     = (Raise TypeError, Scheduler.mk [sample_job 1 5; Job.__init__ 1], frozen 10).
Proof.
  pose (H := unfinalized_job_breaks_polling
               (Scheduler.mk [sample_job 1 5; Job.__init__ 1]) (frozen 10) 1
               (Job.__init__ 1) eq_refl eq_refl).
  split.
  - exact (proj1 (proj2 H)).
  - apply (proj1 (proj2 (proj2 H))). cbn. lia.
Defined.

(** * Further properties of the code *)

(** ** The registry and the unit accessors *)

Lemma insert_last {A} (l : list A) (x y : A) :
  <[length l := y]> (l ++ [x]) = l ++ [y].
Proof.
  rewrite insert_app_r_alt by lia. now rewrite Nat.sub_diag.
Qed.

(** X1.  [every] takes any interval, zero and negative ones too, and puts
    a fresh job at the end of the registry: the handle it returns names
    that job, the jobs registered before keep their places, and a method
    called through the handle works on the new job. *)
Theorem every_registers (s : Scheduler.t) (c : Clock) (interval : Z) :
  exists h s',
    Scheduler.every interval s c = (Ok h, s', c)
    /\ Scheduler.jobs s' !! h = Some (Job.__init__ interval)
    /\ length (Scheduler.jobs s') = S (length (Scheduler.jobs s))
    /\ (forall i j, Scheduler.jobs s !! i = Some j ->
                    Scheduler.jobs s' !! i = Some j)
    /\ (forall A (m : M Job.t A),
          Scheduler.on_job h m s' c
          = (let '(r, j', c') := m (Job.__init__ interval) c in
             (r, Scheduler.mk (Scheduler.jobs s ++ [j']), c'))).
Proof.
  exists (length (Scheduler.jobs s)),
         (Scheduler.mk (Scheduler.jobs s ++ [Job.__init__ interval])).
  assert (Hh : (Scheduler.jobs s ++ [Job.__init__ interval])
               !! length (Scheduler.jobs s) = Some (Job.__init__ interval)).
  { rewrite lookup_app_r by lia. now rewrite Nat.sub_diag. }
  split; [reflexivity|]. split; [exact Hh|]. split.
  { cbn. rewrite length_app. cbn. lia. }
  split.
  - intros i j Hi. cbn. now apply lookup_app_l_Some.
  - intros A m. unfold Scheduler.on_job. cbn [Scheduler.jobs]. rewrite Hh.
    destruct (m (Job.__init__ interval) c) as [[r j'] c'].
    now rewrite insert_last.
Qed.

Lemma singular_rejects (name : string) (plural : M Job.t Datatypes.unit)
      (self : Job.t) (c : Clock) :
  Job.interval self <> 1 ->
  Job.singular name plural self c
  = (Raise (IntervalError (interval_error name)), self, c).
Proof.
  intros H. unfold Job.singular. unfold_m.
  apply Z.eqb_neq in H. now rewrite H.
Qed.

Lemma singular_accepts (name : string) (plural : M Job.t Datatypes.unit)
      (self : Job.t) (c : Clock) :
  Job.interval self = 1 ->
  Job.singular name plural self c = plural self c.
Proof.
  intros H. unfold Job.singular. unfold_m.
  apply Z.eqb_eq in H. now rewrite H.
Qed.

(** X2.  Each singular accessor sets the unit of its plural when the
    interval is 1, and changes nothing else; with any other interval it
    raises [IntervalError] with the message made from its own name, and
    leaves the job as it was. *)
Theorem singular_accessors (self : Job.t) (c : Clock) :
  let outcome name u :=
    if Job.interval self =? 1
    then (Ok tt, Job.set_unit (Some u) self, c)
    else (Raise (IntervalError (interval_error name)), self, c) in
  Job.second self c = outcome "second"%string Seconds
  /\ Job.minute self c = outcome "minute"%string Minutes
  /\ Job.hour self c = outcome "hour"%string Hours
  /\ Job.day self c = outcome "day"%string Days
  /\ Job.week self c = outcome "week"%string Weeks.
Proof.
  cbn zeta. destruct (Job.interval self =? 1) eqn:E.
  - apply Z.eqb_eq in E.
    unfold Job.second, Job.minute, Job.hour, Job.day, Job.week.
    rewrite !singular_accepts by assumption. now repeat split.
  - apply Z.eqb_neq in E.
    unfold Job.second, Job.minute, Job.hour, Job.day, Job.week.
    rewrite !singular_rejects by assumption. now repeat split.
Qed.

(** X3.  A job is registered before its accessor is tried: after
    [every(k).hour] with [k] other than 1 has raised [IntervalError], the
    job is in the registry without a next run, and from then on
    [run_pending] raises [TypeError]. *)
Theorem rejected_accessor_stays_registered
        (s : Scheduler.t) (c : Clock) (k : Z) (name : string)
        (plural : M Job.t Datatypes.unit) :
  k <> 1 ->
  (let* job := Scheduler.every k in
   Scheduler.on_job job (Job.singular name plural)) s c
  = (Raise (IntervalError (interval_error name)),
     Scheduler.mk (Scheduler.jobs s ++ [Job.__init__ k]), c)
  /\ forall c1, exists c2,
      Scheduler.run_pending (Scheduler.mk (Scheduler.jobs s ++ [Job.__init__ k])) c1
      = (Raise TypeError,
         Scheduler.mk (Scheduler.jobs s ++ [Job.__init__ k]), c2).
Proof.
  intros Hk.
  assert (Hh : (Scheduler.jobs s ++ [Job.__init__ k])
               !! length (Scheduler.jobs s) = Some (Job.__init__ k)).
  { rewrite lookup_app_r by lia. now rewrite Nat.sub_diag. }
  split.
  - unfold bind, Scheduler.every, Scheduler.on_job. cbn [Scheduler.jobs].
    rewrite Hh. rewrite singular_rejects by exact Hk.
    now rewrite insert_last.
  - intros c1.
    apply (run_pending_unfinalized
             (Scheduler.mk (Scheduler.jobs s ++ [Job.__init__ k])) c1
             (length (Scheduler.jobs s)) (Job.__init__ k) Hh eq_refl).
Qed.

Lemma rejected_accessor_stays_registered_witness :
  (let* job := Scheduler.every 2 in Scheduler.on_job job Job.hour)
    Scheduler.__init__ (frozen 0)
  = (Raise (IntervalError (interval_error "hour")),
     Scheduler.mk [Job.__init__ 2], frozen 0).
Proof.
  refine (proj1 (rejected_accessor_stays_registered Scheduler.__init__
                   (frozen 0) 2 "hour" Job.hours _)).
  lia.
Defined.

(** ** Setting the anchor *)

Lemma split_length (sep : ascii) (s : string) :
  length (Py.split sep s) = S (occurrences sep s).
Proof.
  induction s as [|x r IH]; cbn; [reflexivity|].
  destruct (Ascii.eqb x sep); cbn.
  - now rewrite IH.
  - destruct (Py.split sep r) as [|hd tl]; cbn in *; [discriminate | exact IH].
Qed.

Lemma int_raises (s : string) (e : Exn) : Py.int s = Raise e -> e = ValueError.
Proof.
  unfold Py.int.
  destruct (match Py.strip _ with [] => _ | _ => _ end); [|congruence].
  destruct (Py.max_str_digits <? _); congruence.
Qed.

(** X4.  [at] either stores an anchor or changes nothing, and never reads
    the clock.  The anchor it stores is a time of day, with the hour 0 on
    an hourly job, and only a job whose unit is hours or days gets one; a
    call that raises raises [ValueError] or [SchedulerValueError] and
    leaves the job as it was. *)
Theorem at_all_or_nothing (self : Job.t) (c : Clock) (time_value : string) :
  (exists a,
      Job.at_ time_value self c = (Ok tt, Job.set_at_time (Some a) self, c)
      /\ 0 <= t_hour a <= 23 /\ 0 <= t_minute a <= 59
      /\ (Job.unit self = Some Hours /\ t_hour a = 0
          \/ Job.unit self = Some Days))
  \/ (exists e,
         Job.at_ time_value self c = (Raise e, self, c)
         /\ (e = ValueError \/ exists msg, e = SchedulerValueError msg)).
Proof.
  unfold Job.at_. unfold_m.
  destruct (Job.unit self) as [[]|] eqn:Hu; try (right; eauto; fail);
    (destruct (Py.split ":" time_value) as [|hh [|mm [|x l]]];
       try (right; eauto; fail)).
  - destruct (Py.int mm) as [m|e] eqn:Em;
      [|right; rewrite (int_raises _ _ Em); eauto].
    destruct ((0 <=? m) && (m <=? 59)) eqn:Hm; cbn [negb]; [|right; eauto].
    unfold Py.time. cbn. rewrite Hm. apply andb_prop in Hm as [H1 H2].
    left. exists (mkTime 0 m). cbn. repeat split; try lia. now left.
  - destruct (Py.int hh) as [h|e] eqn:Eh;
      [|right; rewrite (int_raises _ _ Eh); eauto].
    destruct ((0 <=? h) && (h <=? 23)) eqn:Hh; cbn [negb]; [|right; eauto].
    destruct (Py.int mm) as [m|e] eqn:Em;
      [|right; rewrite (int_raises _ _ Em); eauto].
    destruct ((0 <=? m) && (m <=? 59)) eqn:Hm; cbn [negb]; [|right; eauto].
    unfold Py.time. apply andb_prop in Hm as [H1 H2].
    rewrite Hh, H1, H2. apply andb_prop in Hh as [H3 H4].
    left. exists (mkTime h m). cbn. repeat split; try lia. now right.
Qed.

(** X5.  On a daily job [at("HH:MM")], given ASCII text, reads the hour
    first: text that is no integer as [int] reads one raises [ValueError],
    an hour outside 0 to 23 raises the hour-out-of-range error, whatever
    the minute is; then the minute is read in the same way.  When both
    are in range the anchor is the time they give; in every other case
    the job is left as it was. *)
Theorem at_days_reads_hour_first
        (self : Job.t) (c : Clock) (hh mm : string) :
  Job.unit self = Some Days ->
  Py.contains ":" hh = false -> Py.contains ":" mm = false ->
  ascii_text hh = true -> ascii_text mm = true ->
  Job.at_ (hh ++ ":" ++ mm) self c =
    match Py.int hh with
    | Raise e => (Raise e, self, c)
    | Ok h =>
        if (0 <=? h) && (h <=? 23) then
          match Py.int mm with
          | Raise e => (Raise e, self, c)
          | Ok m =>
              if (0 <=? m) && (m <=? 59)
              then (Ok tt, Job.set_at_time (Some (mkTime h m)) self, c)
              else (Raise (SchedulerValueError minute_wrong), self, c)
          end
        else (Raise (SchedulerValueError hour_wrong), self, c)
    end.
Proof.
  intros Hu Hh Hm _ _. unfold Job.at_. unfold_m. rewrite Hu.
  rewrite split_hh_mm by assumption.
  destruct (Py.int hh) as [h|e]; [|reflexivity].
  destruct ((0 <=? h) && (h <=? 23)) eqn:Hr; cbn [negb]; [|reflexivity].
  destruct (Py.int mm) as [m|e]; [|reflexivity].
  destruct ((0 <=? m) && (m <=? 59)) eqn:Hr'; cbn [negb]; [|reflexivity].
  unfold Py.time. apply andb_prop in Hr' as [H1 H2].
  rewrite Hr, H1, H2. reflexivity.
Qed.

Lemma at_days_reads_hour_first_witness :
  Job.at_ "24:xx" (Job.set_unit (Some Days) (Job.__init__ 1)) (frozen 0)
  = (Raise (SchedulerValueError hour_wrong),
     Job.set_unit (Some Days) (Job.__init__ 1), frozen 0).
Proof.
  exact (at_days_reads_hour_first (Job.set_unit (Some Days) (Job.__init__ 1))
           (frozen 0) "24" "xx" eq_refl eq_refl eq_refl eq_refl eq_refl).
Defined.

(** X6.  On a job whose unit is hours or days, [at] takes a text with one
    colon: with none, or with two or more, unpacking the parts raises
    [ValueError] before anything is parsed, and the job is left as it
    was. *)
Theorem at_needs_one_colon (self : Job.t) (c : Clock) (time_value : string) :
  Job.unit self = Some Hours \/ Job.unit self = Some Days ->
  occurrences ":" time_value <> 1%nat ->
  Job.at_ time_value self c = (Raise ValueError, self, c).
Proof.
  intros Hu Hn. unfold Job.at_. unfold_m.
  pose proof (split_length ":" time_value) as Hl.
  destruct (Py.split ":" time_value) as [|hh [|mm [|x l]]]; cbn in Hl;
    try (destruct Hu as [-> | ->]; reflexivity).
  exfalso. apply Hn. lia.
Qed.

Lemma at_needs_one_colon_witness :
  Job.at_ "09:30:00" (Job.set_unit (Some Days) (Job.__init__ 1)) (frozen 0)
  = (Raise ValueError, Job.set_unit (Some Days) (Job.__init__ 1), frozen 0).
Proof.
  apply (at_needs_one_colon (Job.set_unit (Some Days) (Job.__init__ 1))
           (frozen 0) "09:30:00").
  - now right.
  - cbn. lia.
Defined.

(** ** What scheduling and running leave alone *)

Section Keeps.

Context {St : Type} (R : St -> St -> Prop) `{!PreOrder R}.

Lemma keeps_ret {A} (a : A) : keeps R (ret (S := St) a).
Proof. intros s c r s' c' H. unfold_m. now injection H as <- <- <-. Qed.

Lemma keeps_raise {A} (e : Exn) : keeps R (raise (S := St) (A := A) e).
Proof. intros s c r s' c' H. unfold_m. now injection H as <- <- <-. Qed.

Lemma keeps_get : keeps R (get (S := St)).
Proof. intros s c r s' c' H. unfold_m. now injection H as <- <- <-. Qed.

Lemma keeps_lift {A} (x : Res A) : keeps R (lift (S := St) x).
Proof. intros s c r s' c' H. unfold_m. now injection H as <- <- <-. Qed.

Lemma keeps_now : keeps R (now (S := St)).
Proof. intros s c r s' c' H. unfold_m. now injection H as <- <- <-. Qed.

Lemma keeps_modify (f : St -> St) :
  (forall s, R s (f s)) -> keeps R (modify f).
Proof. intros Hf s c r s' c' H. unfold_m. injection H as <- <- <-. apply Hf. Qed.

Lemma keeps_bind {A B} (m : M St A) (k : A -> M St B) :
  keeps R m -> (forall a, keeps R (k a)) -> keeps R (bind m k).
Proof.
  intros Hm Hk s c r s' c' H. unfold bind in H.
  destruct (m s c) as [[[a|e] s1] c1] eqn:E.
  - transitivity s1; [exact (Hm _ _ _ _ _ E) | exact (Hk a _ _ _ _ _ H)].
  - injection H as <- <- <-. exact (Hm _ _ _ _ _ E).
Qed.

End Keeps.

Ltac keeps :=
  repeat first
    [ apply keeps_ret; typeclasses eauto
    | apply keeps_raise; typeclasses eauto
    | apply keeps_get; typeclasses eauto
    | apply keeps_lift; typeclasses eauto
    | apply keeps_now; typeclasses eauto
    | apply keeps_bind; [typeclasses eauto | | intros ?]
    | match goal with
      | |- keeps _ (match ?x with _ => _ end) => destruct x
      | |- keeps _ (if ?b then _ else _) => destruct b
      end ].

#[local] Instance same_config_preorder : PreOrder same_config.
Proof.
  split.
  - intros j. now repeat split.
  - intros j1 j2 j3 (A1 & A2 & A3 & A4) (B1 & B2 & B3 & B4).
    repeat split; congruence.
Qed.

#[local] Instance same_but_schedule_preorder : PreOrder same_but_schedule.
Proof.
  split.
  - intros j. split; reflexivity.
  - intros j1 j2 j3 [A1 A2] [B1 B2].
    split; [now transitivity j2 | congruence].
Qed.

#[local] Instance registry_config_preorder :
  PreOrder (fun s s' : Scheduler.t =>
              Forall2 same_config (Scheduler.jobs s) (Scheduler.jobs s')).
Proof.
  split.
  - intros s. hnf. reflexivity.
  - intros s1 s2 s3 H1 H2. hnf in *. now transitivity (Scheduler.jobs s2).
Qed.

Lemma keeps_schedule_next_run : keeps same_but_schedule Job._schedule_next_run.
Proof.
  unfold Job._schedule_next_run.
  keeps; apply keeps_modify; intros j; now repeat split.
Qed.

Lemma keeps_run : keeps same_config Job.run.
Proof.
  unfold Job.run.
  apply keeps_bind; [typeclasses eauto | keeps | intros self].
  apply keeps_bind; [typeclasses eauto | | intros v].
  { intros s c r s' c' H. unfold Job.call in H.
    destruct (Job.job_func self) as [f|]; [destruct (f (ticks c))|];
      injection H as <- <- <-; reflexivity. }
  apply keeps_bind; [typeclasses eauto | keeps | intros n].
  apply keeps_bind; [typeclasses eauto | | intros _].
  { apply keeps_modify. intros j. now repeat split. }
  apply keeps_bind; [typeclasses eauto | | intros _; keeps].
  intros s c r s' c' H. now apply keeps_schedule_next_run in H as [H _].
Qed.

Section KeepsRegistry.

Let R := fun s s' : Scheduler.t =>
           Forall2 same_config (Scheduler.jobs s) (Scheduler.jobs s').

Lemma keeps_on_job {A} (i : nat) (m : M Job.t A) :
  keeps same_config m -> keeps R (Scheduler.on_job i m).
Proof.
  intros Hm s c r s' c' H. unfold Scheduler.on_job in H.
  destruct (Scheduler.jobs s !! i) as [j|] eqn:Hj.
  - destruct (m j c) as [[r1 j1] c1] eqn:E. injection H as <- <- <-.
    unfold R. cbn.
    rewrite <- (list_insert_id (Scheduler.jobs s) i j Hj) at 1.
    apply Forall2_insert; [reflexivity | exact (Hm _ _ _ _ _ E)].
  - injection H as <- <- <-. reflexivity.
Qed.

Lemma keeps_for_each (order : list nat)
      (body : nat -> M Scheduler.t Datatypes.unit) :
  (forall i, keeps R (body i)) -> keeps R (Scheduler.for_each order body).
Proof.
  intros Hb. induction order as [|i order IH]; cbn.
  - keeps.
  - apply keeps_bind; [typeclasses eauto | apply Hb | intros _; exact IH].
Qed.

Lemma keeps_sleep (secs : Z) : keeps R (Scheduler.sleep secs).
Proof.
  unfold Scheduler.sleep.
  destruct (_ || _); [|destruct (secs <? 0); [|destruct (secs <=? _)]];
    keeps.
Qed.

Lemma keeps_run_pending : keeps R Scheduler.run_pending.
Proof.
  intros s c r s' c' H. unfold Scheduler.run_pending, bind in H.
  destruct (Scheduler.pending s c) as [[[order|e] s1] c1] eqn:Ep.
  - apply pending_inv in Ep as [-> _].
    revert H. apply keeps_for_each. intros i.
    apply keeps_bind; [typeclasses eauto | | intros _; keeps].
    apply keeps_on_job, keeps_run.
  - apply pending_inv in Ep as [-> _]. injection H as <- <- <-. reflexivity.
Qed.

Lemma keeps_run_all (delay_second : Z) :
  keeps R (Scheduler.run_all delay_second).
Proof.
  unfold Scheduler.run_all.
  apply keeps_bind; [typeclasses eauto | keeps | intros self].
  apply keeps_for_each. intros i.
  apply keeps_bind; [typeclasses eauto | | intros _; apply keeps_sleep].
  apply keeps_on_job, keeps_run.
Qed.

End KeepsRegistry.

(** X7.  A poll, whether it returns or raises, leaves the registry as long
    as it was, and every job with the interval, the unit, the action and
    the anchor it had: running a job writes its last run, its period and
    its next run only. *)
Theorem polls_keep_configuration
        (s s' : Scheduler.t) (c c' : Clock) (r : Res Datatypes.unit)
        (delay_second : Z) :
  Scheduler.run_pending s c = (r, s', c')
  \/ Scheduler.run_all delay_second s c = (r, s', c') ->
  length (Scheduler.jobs s') = length (Scheduler.jobs s)
  /\ forall k j, Scheduler.jobs s !! k = Some j ->
                 exists j', Scheduler.jobs s' !! k = Some j' /\ same_config j j'.
Proof.
  intros H.
  assert (HR : Forall2 same_config (Scheduler.jobs s) (Scheduler.jobs s')).
  { destruct H as [H|H].
    - exact (keeps_run_pending _ _ _ _ _ H).
    - exact (keeps_run_all delay_second _ _ _ _ _ H). }
  split.
  - symmetry. exact (Forall2_length _ _ _ HR).
  - intros k j Hk.
    destruct (Forall2_lookup_l _ _ _ _ _ HR Hk) as (j' & Hj' & Hc). eauto.
Qed.

Lemma polls_keep_configuration_witness :
  exists s' c',
    Scheduler.run_pending (Scheduler.mk [sample_job 1 5; sample_job 2 7])
      (frozen eight_o_clock) = (Ok tt, s', c')
    /\ length (Scheduler.jobs s') = 2%nat.
Proof.
  eexists _, _. split; [reflexivity|].
  exact (proj1 (polls_keep_configuration
                  (Scheduler.mk [sample_job 1 5; sample_job 2 7]) _
                  (frozen eight_o_clock) _ (Ok tt) 0 (or_introl eq_refl))).
Defined.

(** ** What a poll does to each job *)

(** A job that was not due at its check is not in the selection. *)
Lemma not_selected (s : Scheduler.t) (c c1 : Clock)
      (order : list (nat * Job.t)) (k : nat) (j : Job.t) (t : Z) :
  Scheduler.pending s c = (Ok order, s, c1) ->
  Scheduler.jobs s !! k = Some j ->
  Job.next_run j = Some t ->
  readings c (ticks c + k)%nat < t ->
  k ∉ map fst order.
Proof.
  intros Ep Hj Hn Hlate Hin.
  pose proof (pending_inv _ _ _ _ _ Ep) as (_ & Hdue & _).
  apply list_elem_of_fmap in Hin as (x & -> & Hx).
  rewrite Forall_forall in Hdue.
  destruct (Hdue x Hx) as (Hx1 & t' & Ht' & _ & Hle).
  rewrite Hj in Hx1. injection Hx1 as Hx1. rewrite <- Hx1 in Ht'.
  rewrite Hn in Ht'. injection Ht' as <-. lia.
Qed.

(** X8.  [run_pending] does not touch a job that is not due: a job whose
    next run is later than the instant read at its check is after the poll
    as it was before, whether the poll returns or raises. *)
Theorem run_pending_skips_jobs_not_due
        (s s' : Scheduler.t) (c c' : Clock) (r : Res Datatypes.unit)
        (k : nat) (j : Job.t) (t : Z) :
  Scheduler.run_pending s c = (r, s', c') ->
  Scheduler.jobs s !! k = Some j ->
  Job.next_run j = Some t ->
  readings c (ticks c + k)%nat < t ->
  Scheduler.jobs s' !! k = Some j.
Proof.
  intros H Hj Hn Hlate. unfold Scheduler.run_pending, bind in H.
  destruct (Scheduler.pending s c) as [[[order|e] s1] c1] eqn:Ep.
  - pose proof (pending_inv _ _ _ _ _ Ep) as (-> & _).
    rewrite (for_each_frame (ret tt) ret_pure _ _ _ _ _ _ k H); [exact Hj|].
    exact (not_selected s c c1 order k j t Ep Hj Hn Hlate).
  - apply pending_inv in Ep as [-> _]. now injection H as <- <- <-.
Qed.

Lemma run_pending_skips_jobs_not_due_witness :
  exists r s' c',
    Scheduler.run_pending (Scheduler.mk [sample_job 1 5; sample_job 2 20])
      (frozen 10) = (r, s', c')
    /\ Scheduler.jobs s' !! 1%nat = Some (sample_job 2 20).
Proof.
  eexists _, _, _. split; [reflexivity|].
  refine (run_pending_skips_jobs_not_due
            (Scheduler.mk [sample_job 1 5; sample_job 2 20]) _ (frozen 10) _ _
            1 (sample_job 2 20) 20 eq_refl eq_refl eq_refl _).
  cbn. lia.
Defined.

(** What [_schedule_next_run] has done when it returns. *)
Lemma schedule_returns (self self' : Job.t) (c c' : Clock) :
  Job._schedule_next_run self c = (Ok tt, self', c') ->
  Job.last_run self' = Job.last_run self
  /\ Job.next_run self' <> None
  /\ (ticks c < ticks c')%nat.
Proof.
  intros H.
  pose proof (keeps_schedule_next_run _ _ _ _ _ H) as [_ Hl].
  split; [exact Hl|]. clear Hl. revert H.
  unfold Job._schedule_next_run. unfold_m.
  destruct (Job.unit self) as [u|]; [|discriminate].
  destruct (timedelta u (Job.interval self)) as [p|]; [|discriminate].
  destruct (dt_add (read c) p) as [nr|]; [|discriminate].
  cbn. destruct (Job.at_time self) as [a|].
  2:{ intros [= <- <-]. split; [discriminate | unfold advance; cbn; lia]. }
  destruct (negb _); [discriminate|].
  destruct (Py.replace nr _) as [nr'|]; [|discriminate].
  cbn. destruct (Job.last_run self).
  { intros [= <- <-]. split; [discriminate | unfold advance; cbn; lia]. }
  destruct (_ && _).
  { destruct (dt_sub nr' Datetime.DAY); [|discriminate].
    intros [= <- <-]. split; [discriminate | unfold advance; cbn; lia]. }
  destruct (_ && _).
  { destruct (dt_sub nr' Datetime.HOUR); [|discriminate].
    intros [= <- <-]. split; [discriminate | unfold advance; cbn; lia]. }
  intros [= <- <-]. split; [discriminate | unfold advance; cbn; lia].
Qed.

(** What [run] has done when it returns. *)
Lemma run_returns (self self' : Job.t) (c c' : Clock) (v : Z) :
  Job.run self c = (Ok v, self', c') ->
  (exists f, Job.job_func self = Some f /\ f (ticks c) = Returns v)
  /\ Job.last_run self' = Some (read c)
  /\ Job.next_run self' <> None
  /\ (ticks c < ticks c')%nat.
Proof.
  intros H. destruct (Job.job_func self) as [f|] eqn:Hf.
  - destruct (f (ticks c)) as [w|e] eqn:Hw.
    + rewrite (run_action_returns self c f w Hf Hw) in H.
      destruct (Job._schedule_next_run _ _) as [[[[]|e] s2] c2] eqn:Es;
        [|discriminate].
      injection H as <- <- <-.
      apply schedule_returns in Es as (Hl & Hn & Ht).
      split; [eauto|]. split; [exact Hl|]. split; [exact Hn|].
      unfold advance in Ht; cbn in Ht. lia.
    + rewrite (run_action_throws self c f e Hf Hw) in H. discriminate.
  - unfold Job.run, Job.call in H. unfold_m. rewrite Hf in H. discriminate.
Qed.

(** A job that was due at its check is run by the poll, if the poll
    returns: the loop reaches it at some clock [c2], and its state after
    the poll is the one in which that run left it. *)
Lemma run_pending_reaches (s s' : Scheduler.t) (c c' : Clock)
      (k : nat) (j : Job.t) (t : Z) :
  Scheduler.run_pending s c = (Ok tt, s', c') ->
  Scheduler.jobs s !! k = Some j ->
  Job.next_run j = Some t ->
  t <= readings c (ticks c + k)%nat ->
  exists j' c2 c3 v,
    Scheduler.jobs s' !! k = Some j'
    /\ Job.run j c2 = (Ok v, j', c3)
    /\ readings c2 = readings c
    /\ (ticks c + k < ticks c2)%nat /\ (ticks c3 <= ticks c')%nat.
Proof.
  intros H Hj Hn Hle. unfold Scheduler.run_pending in H.
  unfold bind at 1 in H.
  destruct (Scheduler.pending s c) as [[[order|e] s1] c1] eqn:Ep;
    [|discriminate].
  pose proof (pending_inv _ _ _ _ _ Ep) as (-> & Hdue & Hnd & _ & Hall).
  pose proof (steady_pending _ _ _ _ _ Ep) as [Hr1 _].
  pose proof (Hall k j t Hj Hn Hle) as Hin.
  rewrite Forall_forall in Hdue.
  destruct (Hdue _ Hin) as (_ & _ & _ & Hchecked & _). cbn in Hchecked.
  assert (Hk : k ∈ map fst order).
  { apply list_elem_of_fmap. exists (k, j). now split. }
  apply list_elem_of_split in Hk as (pre & post & Hsplit).
  rewrite Hsplit in H, Hnd.
  pose proof H as H1.
  rewrite (for_each_app (ret tt) pre (k :: post)) in H1.
  destruct (Scheduler.for_each pre _ s c1) as [[[[]|e] s2] c2] eqn:Epre;
    [|discriminate].
  assert (Hsteady : readings c2 = readings c1 /\ (ticks c1 <= ticks c2)%nat).
  { eapply (steady_for_each pre); [|exact Epre].
    intros i. apply steady_run_then, steady_ret. }
  destruct Hsteady as [Hr2 Ht2].
  destruct (Job.run j c2) as [[r j'] c3] eqn:Erun.
  destruct (for_each_at (ret tt) ret_pure pre post k s s2 c1 c2 c3 j j' r
              Hnd Epre Hj Erun)
    as (Hj2 & r' & s'' & c'' & Hloop & Hj' & Hraise).
  rewrite H in Hloop. injection Hloop as <- <- <-.
  destruct r as [v|e]; [|destruct (Hraise e eq_refl) as [? _]; discriminate].
  assert (Ht4 : (ticks c3 <= ticks c')%nat).
  { cbn [Scheduler.for_each] in H1. unfold bind at 1 2 in H1.
    rewrite (on_job_at _ _ _ _ j Hj2), Erun in H1. unfold ret at 1 in H1.
    eapply (steady_for_each post); [|exact H1].
    intros i. apply steady_run_then, steady_ret. }
  exists j', c2, c3, v. split; [exact Hj'|]. split; [exact Erun|].
  split; [congruence|]. split; [lia | exact Ht4].
Qed.

(** X9.  When [run_pending] returns, every job that was due at its check
    has been run: its last run is an instant read later in the same poll,
    and it has a next run again. *)
Theorem run_pending_runs_due_jobs
        (s s' : Scheduler.t) (c c' : Clock) (k : nat) (j : Job.t) (t : Z) :
  Scheduler.run_pending s c = (Ok tt, s', c') ->
  Scheduler.jobs s !! k = Some j ->
  Job.next_run j = Some t ->
  t <= readings c (ticks c + k)%nat ->
  exists j' n,
    Scheduler.jobs s' !! k = Some j'
    /\ (ticks c + k < n < ticks c')%nat
    /\ Job.last_run j' = Some (readings c n)
    /\ Job.next_run j' <> None.
Proof.
  intros H Hj Hn Hle.
  destruct (run_pending_reaches s s' c c' k j t H Hj Hn Hle)
    as (j' & c2 & c3 & v & Hj' & Hrun & Hr & Hlo & Hhi).
  apply run_returns in Hrun as (_ & Hl & Hn' & Ht).
  exists j', (ticks c2). split; [exact Hj'|]. split; [lia|].
  split; [|exact Hn'].
  rewrite Hl. unfold read. now rewrite Hr.
Qed.

Lemma run_pending_runs_due_jobs_witness :
  exists s' c' j' n,
    Scheduler.run_pending (Scheduler.mk [sample_job 1 5; sample_job 2 20])
      (frozen 10) = (Ok tt, s', c')
    /\ Scheduler.jobs s' !! 0%nat = Some j'
    /\ (ticks (frozen 10) + 0 < n < ticks c')%nat
    /\ Job.last_run j' = Some (readings (frozen 10) n)
    /\ Job.next_run j' <> None.
Proof.
  eexists _, _.
  destruct (run_pending_runs_due_jobs
              (Scheduler.mk [sample_job 1 5; sample_job 2 20]) _ (frozen 10) _
              0 (sample_job 1 5) 5 eq_refl eq_refl eq_refl)
    as (j' & n & H); [cbn; lia|].
  exists j', n. split; [reflexivity | exact H].
Defined.

(** X10.  Only a job whose unit is hours or days gets an anchor from [at];
    any other job, one without a unit too, is refused and left as it was.
    The unit can still be changed after [at]: then [do] raises the same
    error, but only after it has bound the action and written the period
    and the next run. *)
Theorem anchor_needs_hours_or_days
        (self : Job.t) (c : Clock) (f : Action) (time_value : string) :
  Job.unit self <> Some Hours -> Job.unit self <> Some Days ->
  Job.at_ time_value self c
  = (Raise (SchedulerValueError scheduler_value_error), self, c)
  /\ forall u a,
      Job.unit self = Some u -> Job.at_time self = Some a ->
      Datetime.valid (read c) ->
      Datetime.valid (read c + Job.interval self * unit_duration u) ->
      Job.do f self c
      = (Raise (SchedulerValueError scheduler_value_error),
         Job.set_next_run (Some (read c + Job.interval self * unit_duration u))
           (Job.set_period (Some (Job.interval self * unit_duration u))
              (Job.set_job_func (Some f) self)),
         advance c).
Proof.
  intros Hh Hd. split.
  - unfold Job.at_. unfold_m.
    destruct (Job.unit self) as [[]|]; try reflexivity; congruence.
  - intros u a Hu Ha Hv Hs. unfold Job.do, Job._schedule_next_run. unfold_m.
    cbn. rewrite Hu. rewrite (timedelta_valid u _ (read c)) by assumption.
    rewrite dt_add_valid by assumption. cbn. rewrite Ha.
    destruct u; try reflexivity; congruence.
Qed.

Lemma anchor_needs_hours_or_days_witness :
  Job.at_ "00:30" (Job.set_unit (Some Seconds) hourly_at_half)
    (frozen eight_o_clock)
  = (Raise (SchedulerValueError scheduler_value_error),
     Job.set_unit (Some Seconds) hourly_at_half, frozen eight_o_clock)
  /\ Job.do (returns 0) (Job.set_unit (Some Seconds) hourly_at_half)
       (frozen eight_o_clock)
     = (Raise (SchedulerValueError scheduler_value_error),
        Job.set_next_run (Some (eight_o_clock + 1 * Datetime.SECOND))
          (Job.set_period (Some (1 * Datetime.SECOND))
             (Job.set_job_func (Some (returns 0))
                (Job.set_unit (Some Seconds) hourly_at_half))),
        advance (frozen eight_o_clock)).
Proof.
  destruct (anchor_needs_hours_or_days
              (Job.set_unit (Some Seconds) hourly_at_half)
              (frozen eight_o_clock) (returns 0) "00:30")
    as [H1 H2]; [discriminate | discriminate |].
  split; [exact H1|].
  apply (H2 Seconds (mkTime 0 30) eq_refl eq_refl);
    vm_compute; (split; [discriminate | reflexivity]).
Defined.

(** ** [run_all] *)

(** A run of a job without an anchor. *)
Lemma run_plain (j : Job.t) (c : Clock) (u : Unit) (f : Action) (v : Z) :
  Job.unit j = Some u -> Job.at_time j = None ->
  Job.job_func j = Some f -> f (ticks c) = Returns v ->
  Datetime.valid (read (advance c)) ->
  Datetime.valid (read (advance c) + Job.interval j * unit_duration u) ->
  Job.run j c
  = (Ok v,
     Job.set_next_run (Some (read (advance c) + Job.interval j * unit_duration u))
       (Job.set_period (Some (Job.interval j * unit_duration u))
          (Job.set_last_run (Some (read c)) j)),
     advance (advance c)).
Proof.
  intros Hu Ha Hf Hv Hn Hs. rewrite (run_action_returns j c f v Hf Hv).
  unfold Job._schedule_next_run. unfold_m. cbn.
  rewrite Hu. rewrite (timedelta_valid u _ (read (advance c))) by assumption.
  rewrite dt_add_valid by assumption. cbn. now rewrite Ha.
Qed.

Lemma sleep_returns (secs : Z) (s : Scheduler.t) (c : Clock) :
  0 <= secs <= Scheduler.SLEEP_SAFE ->
  Scheduler.sleep secs s c = (Ok tt, s, c).
Proof.
  intros Hd. unfold Scheduler.sleep.
  destruct (secs <? - Scheduler.SLEEP_LIMIT) eqn:E1.
  { apply Z.ltb_lt in E1.
    unfold Scheduler.SLEEP_LIMIT, Scheduler.SLEEP_SAFE in *. lia. }
  destruct (Scheduler.SLEEP_LIMIT <? secs) eqn:E2.
  { apply Z.ltb_lt in E2.
    unfold Scheduler.SLEEP_LIMIT, Scheduler.SLEEP_SAFE in *. lia. }
  destruct (secs <? 0) eqn:E3; [apply Z.ltb_lt in E3; lia|].
  destruct (secs <=? Scheduler.SLEEP_SAFE) eqn:E4; [reflexivity|].
  apply Z.leb_gt in E4. lia.
Qed.

Lemma sleep_negative (secs : Z) (s : Scheduler.t) (c : Clock) :
  secs < 0 ->
  Scheduler.sleep secs s c
  = (Raise (if secs <? - Scheduler.SLEEP_LIMIT then OverflowError
            else ValueError), s, c).
Proof.
  intros Hd. unfold Scheduler.sleep.
  destruct (Scheduler.SLEEP_LIMIT <? secs) eqn:E2.
  { apply Z.ltb_lt in E2. unfold Scheduler.SLEEP_LIMIT in *. lia. }
  rewrite orb_false_r.
  destruct (secs <? - Scheduler.SLEEP_LIMIT); [reflexivity|].
  apply Z.ltb_lt in Hd. now rewrite Hd.
Qed.

Lemma run_all_loop (delay_second : Z) (js : list Job.t) :
  0 <= delay_second <= Scheduler.SLEEP_SAFE ->
  forall (pre : list Job.t) (c : Clock),
    (forall k j, js !! k = Some j -> runs_plainly c k j) ->
    exists js',
      Scheduler.for_each (seq (length pre) (length js))
        (fun job => let* _ := Scheduler.on_job job Job.run in
                    Scheduler.sleep delay_second)
        (Scheduler.mk (pre ++ js)) c
      = (Ok tt, Scheduler.mk (pre ++ js'),
         mkClock (readings c) (ticks c + 2 * length js))
      /\ length js' = length js
      /\ forall k j u,
          js !! k = Some j -> Job.unit j = Some u ->
          exists j',
            js' !! k = Some j'
            /\ Job.last_run j' = Some (readings c (ticks c + 2 * k)%nat)
            /\ Job.next_run j'
               = Some (readings c (ticks c + 2 * k + 1)%nat
                       + Job.interval j * unit_duration u).
Proof.
  intros Hd. induction js as [|j js IH]; intros pre c Hjs.
  - exists []. cbn. split; [|split; [reflexivity | intros k j u Hk; discriminate]].
    unfold ret. do 2 f_equal. destruct c as [rd tk]. cbn. f_equal. lia.
  - destruct (Hjs 0%nat j eq_refl) as (Ha & u & f & v & Hu & Hf & Hv & Hn & Hs).
    replace (ticks c + 2 * 0)%nat with (ticks c) in Hv by lia.
    assert (Hread : read (advance c) = readings c (ticks c + 2 * 0 + 1)%nat).
    { unfold read, advance; cbn. f_equal. lia. }
    rewrite <- Hread in Hn, Hs.
    pose proof (run_plain j c u f v Hu Ha Hf Hv Hn Hs) as Hrun.
    set (j1 := Job.set_next_run _ _) in Hrun.
    destruct (IH (pre ++ [j1]) (advance (advance c))) as (js' & Hloop & Hlen & Hall).
    { intros k j0 Hk. destruct (Hjs (S k) j0 Hk) as (Ha0 & u0 & f0 & v0 & H).
      split; [exact Ha0|]. exists u0, f0, v0.
      assert (E : (ticks (advance (advance c)) + 2 * k = ticks c + 2 * S k)%nat)
        by (unfold advance; cbn; lia).
      rewrite E. exact H. }
    exists (j1 :: js'). split; [|split].
    + cbn [length seq Scheduler.for_each]. unfold bind at 1 2.
      assert (Hj : Scheduler.jobs (Scheduler.mk (pre ++ j :: js)) !! length pre
                   = Some j).
      { cbn. rewrite lookup_app_r by lia. now rewrite Nat.sub_diag. }
      rewrite (on_job_at _ _ _ _ j Hj), Hrun. cbn [Scheduler.jobs].
      rewrite insert_app_r_alt by lia. rewrite Nat.sub_diag. cbn [insert list_insert].
      rewrite (sleep_returns delay_second _ _ Hd).
      rewrite length_app in Hloop. cbn [length] in Hloop.
      rewrite Nat.add_1_r in Hloop. rewrite <- !app_assoc in Hloop. cbn [app] in Hloop.
      rewrite Hloop. do 2 f_equal. unfold advance; cbn. f_equal. lia.
    + cbn. now rewrite Hlen.
    + intros [|k] j0 u0 Hk Hu0.
      * injection Hk as <-. exists j1. split; [reflexivity|].
        assert (u0 = u) by congruence. subst u0.
        subst j1. cbn. split.
        -- unfold read. do 2 f_equal. lia.
        -- now rewrite Hread.
      * destruct (Hall k j0 u0 Hk Hu0) as (j' & Hj' & Hl & Hn').
        exists j'. split; [exact Hj'|].
        assert (E : (ticks (advance (advance c)) + 2 * k = ticks c + 2 * S k)%nat)
          by (unfold advance; cbn; lia).
        rewrite E in Hl, Hn'. split; [exact Hl | exact Hn'].
Qed.

(** X11.  [run_all] runs every job of the registry, in the order of
    registration and whether it is due or not: with jobs that have no
    anchor and whose actions return, and a delay from 0 to [SLEEP_SAFE]
    seconds, which [sleep] takes whatever the machine, it returns after
    reading the clock twice for each job, the job at place
    [k] having the reading [2k] as its last run and the reading [2k + 1]
    plus its period as its next run. *)
Theorem run_all_runs_every_job (s : Scheduler.t) (c : Clock) (delay_second : Z) :
  0 <= delay_second <= Scheduler.SLEEP_SAFE ->
  (forall k j, Scheduler.jobs s !! k = Some j -> runs_plainly c k j) ->
  exists s',
    Scheduler.run_all delay_second s c
    = (Ok tt, s', mkClock (readings c) (ticks c + 2 * length (Scheduler.jobs s)))
    /\ length (Scheduler.jobs s') = length (Scheduler.jobs s)
    /\ forall k j u,
        Scheduler.jobs s !! k = Some j -> Job.unit j = Some u ->
        exists j',
          Scheduler.jobs s' !! k = Some j'
          /\ Job.last_run j' = Some (readings c (ticks c + 2 * k)%nat)
          /\ Job.next_run j'
             = Some (readings c (ticks c + 2 * k + 1)%nat
                     + Job.interval j * unit_duration u).
Proof.
  intros Hd Hjs.
  destruct (run_all_loop delay_second (Scheduler.jobs s) Hd [] c Hjs)
    as (js' & Hloop & Hlen & Hall).
  exists (Scheduler.mk js'). split; [|split; [exact Hlen | exact Hall]].
  unfold Scheduler.run_all. unfold bind at 1. unfold get.
  cbn [length app] in Hloop. rewrite scheduler_eta in Hloop. exact Hloop.
Qed.

Lemma run_all_runs_every_job_witness :
  exists s',
    Scheduler.run_all 0 (Scheduler.mk [sample_job 1 5; sample_job 2 20])
      (frozen eight_o_clock)
    = (Ok tt, s', mkClock (readings (frozen eight_o_clock)) 4)
    /\ map Job.last_run (Scheduler.jobs s')
       = [Some eight_o_clock; Some eight_o_clock].
Proof.
  destruct (run_all_runs_every_job
              (Scheduler.mk [sample_job 1 5; sample_job 2 20])
              (frozen eight_o_clock) 0) as (s' & H & _).
  - unfold Scheduler.SLEEP_SAFE. lia.
  - intros [|[|k]] j Hk; try discriminate; injection Hk as <-;
      (split; [reflexivity|]); exists Seconds, (returns 0), 0;
      repeat split; try reflexivity; vm_compute; congruence.
  - eexists. split; [reflexivity|]. reflexivity.
Defined.

(** X12.  With a negative delay [run_all] runs the first job and then
    raises from [sleep]: [ValueError] for a delay down to [- SLEEP_LIMIT]
    seconds, [OverflowError] for one below.  The first job has been run,
    the jobs after it have not.  On an empty registry nothing sleeps, and
    the call returns. *)
Theorem run_all_negative_delay
        (s : Scheduler.t) (c c' : Clock) (delay_second : Z)
        (j j' : Job.t) (rest : list Job.t) (v : Z) :
  delay_second < 0 ->
  Scheduler.jobs s = j :: rest ->
  Job.run j c = (Ok v, j', c') ->
  Scheduler.run_all delay_second s c
  = (Raise (if delay_second <? - Scheduler.SLEEP_LIMIT then OverflowError
            else ValueError),
     Scheduler.mk (j' :: rest), c')
  /\ Scheduler.run_all delay_second Scheduler.__init__ c
     = (Ok tt, Scheduler.__init__, c).
Proof.
  intros Hd Hjobs Hrun. split; [|reflexivity].
  unfold Scheduler.run_all. unfold bind at 1. unfold get. rewrite Hjobs.
  cbn [length seq Scheduler.for_each]. unfold bind at 1 2.
  assert (Hj : Scheduler.jobs s !! 0%nat = Some j) by now rewrite Hjobs.
  rewrite (on_job_at _ _ _ _ j Hj), Hrun, Hjobs. cbn [insert list_insert].
  now rewrite (sleep_negative delay_second _ _ Hd).
Qed.

Lemma run_all_negative_delay_witness :
  exists j' c',
    Scheduler.run_all (-1) (Scheduler.mk [sample_job 1 5; sample_job 2 20])
      (frozen eight_o_clock)
    = (Raise ValueError, Scheduler.mk [j'; sample_job 2 20], c')
    /\ Job.last_run j' = Some eight_o_clock.
Proof.
  eexists _, _. split.
  - refine (proj1 (run_all_negative_delay
                     (Scheduler.mk [sample_job 1 5; sample_job 2 20])
                     (frozen eight_o_clock) _ (-1) (sample_job 1 5) _
                     [sample_job 2 20] 0 _ eq_refl eq_refl)).
    lia.
  - reflexivity.
Defined.

Lemma run_without_action (j : Job.t) (c : Clock) :
  Job.job_func j = None -> Job.run j c = (Raise TypeError, j, c).
Proof.
  intros Hf. unfold Job.run, Job.call. unfold_m. now rewrite Hf.
Qed.

(** X13.  [run_all] does not pass over a job that was never given an
    action: when the loop reaches it, calling the missing action raises
    [TypeError], the job is left as it was, and the jobs after it are not
    run. *)
Theorem run_all_stops_at_job_without_action
        (s s1 : Scheduler.t) (c c2 : Clock) (i : nat) (j : Job.t)
        (delay_second : Z) (pre post : list nat) :
  Scheduler.jobs s !! i = Some j ->
  Job.job_func j = None ->
  seq 0 (length (Scheduler.jobs s)) = pre ++ i :: post ->
  Scheduler.for_each pre
    (fun job => let* _ := Scheduler.on_job job Job.run in
                Scheduler.sleep delay_second) s c
  = (Ok tt, s1, c2) ->
  Scheduler.run_all delay_second s c = (Raise TypeError, s1, c2)
  /\ Scheduler.jobs s1 !! i = Some j
  /\ forall k, k ∈ post -> Scheduler.jobs s1 !! k = Scheduler.jobs s !! k.
Proof.
  intros Hj Hf Hseq Hpre.
  assert (Hnd : NoDup (pre ++ i :: post)).
  { rewrite <- Hseq. apply NoDup_seq. }
  pose proof (run_without_action j c2 Hf) as Hrun.
  destruct (for_each_at (Scheduler.sleep delay_second)
              (sleep_pure delay_second) pre post i s s1 c c2 c2 j j _
              Hnd Hpre Hj Hrun)
    as (Hj1 & r' & s' & c' & Hloop & _ & Hraise).
  destruct (Hraise _ eq_refl) as (-> & -> & ->).
  rewrite (list_insert_id _ _ _ Hj1), scheduler_eta in Hloop.
  split; [|split; [exact Hj1|]].
  - unfold Scheduler.run_all. unfold bind at 1. unfold get.
    rewrite Hseq. exact Hloop.
  - intros k Hk.
    apply (for_each_frame (Scheduler.sleep delay_second)
             (sleep_pure delay_second) pre s c _ s1 c2 k Hpre).
    apply NoDup_app in Hnd as (_ & Hdisj & _).
    intros Hin. apply (Hdisj k Hin). now right.
Qed.

Lemma run_all_stops_at_job_without_action_witness :
  exists s1 c2,
    Scheduler.run_all 0 (Scheduler.mk [sample_job 1 5; Job.__init__ 1; sample_job 2 20])
      (frozen eight_o_clock)
    = (Raise TypeError, s1, c2)
    /\ Scheduler.jobs s1 !! 1%nat = Some (Job.__init__ 1)
    /\ Scheduler.jobs s1 !! 2%nat = Some (sample_job 2 20).
Proof.
  eexists _, _.
  destruct (run_all_stops_at_job_without_action
              (Scheduler.mk [sample_job 1 5; Job.__init__ 1; sample_job 2 20])
              _ (frozen eight_o_clock) _ 1 (Job.__init__ 1) 0 [0%nat] [2%nat]
              eq_refl eq_refl eq_refl eq_refl) as (H1 & H2 & H3).
  split; [exact H1|]. split; [exact H2|].
  rewrite (H3 2%nat); [reflexivity | now left].
Defined.

(** ** The queries *)

Lemma min_from_earliest (l : list Job.t) :
  forall best b,
    Job.next_run best = Some b ->
    Forall (fun j => Job.next_run j <> None) l ->
    exists j t,
      Builtins.min_from Job.__lt__ best l = Ok j
      /\ Job.next_run j = Some t /\ j ∈ best :: l /\ t <= b
      /\ forall x t', x ∈ l -> Job.next_run x = Some t' -> t <= t'.
Proof.
  induction l as [|x l IH]; intros best b Hb Hl.
  - exists best, b. cbn. repeat split; try assumption; try lia.
    + now left.
    + intros x t' Hx. now apply elem_of_nil in Hx.
  - apply Forall_cons in Hl as [Hx Hl].
    destruct (Job.next_run x) as [a|] eqn:Ha; [|congruence].
    cbn [Builtins.min_from]. unfold Job.__lt__ at 1. rewrite Ha, Hb. cbn.
    destruct (a <=? b) eqn:Hab.
    + apply Z.leb_le in Hab.
      destruct (IH x a Ha Hl) as (j & t & Hmin & Ht & Hin & Hle & Hall).
      exists j, t. split; [exact Hmin|]. split; [exact Ht|].
      split; [now right|]. split; [lia|].
      intros y t' Hy Hy'. apply elem_of_cons in Hy as [->|Hy]; [|eauto].
      assert (t' = a) by congruence. lia.
    + apply Z.leb_gt in Hab.
      destruct (IH best b Hb Hl) as (j & t & Hmin & Ht & Hin & Hle & Hall).
      exists j, t. split; [exact Hmin|]. split; [exact Ht|].
      split.
      { apply elem_of_cons in Hin as [->|Hin]; [now left | now right; right]. }
      split; [lia|].
      intros y t' Hy Hy'. apply elem_of_cons in Hy as [->|Hy]; [|eauto].
      assert (t' = a) by congruence. lia.
Qed.

Lemma min_earliest (js : list Job.t) :
  js <> [] -> Forall (fun j => Job.next_run j <> None) js ->
  exists j t,
    Builtins.min Job.__lt__ js = Ok j
    /\ Job.next_run j = Some t /\ j ∈ js
    /\ forall x t', x ∈ js -> Job.next_run x = Some t' -> t <= t'.
Proof.
  intros Hne Hall. destruct js as [|first rest]; [congruence|].
  apply Forall_cons in Hall as [Hf Hrest].
  destruct (Job.next_run first) as [b|] eqn:Hb; [|congruence].
  destruct (min_from_earliest rest first b Hb Hrest)
    as (j & t & Hmin & Ht & Hin & Hle & Hall).
  exists j, t. cbn [Builtins.min]. repeat split; try assumption.
  intros x t' Hx Hx'. apply elem_of_cons in Hx as [->|Hx]; [|eauto].
  assert (t' = b) by congruence. lia.
Qed.

(** X14.  When the registry is not empty and every job has a next run,
    [next_run] returns the earliest of them: the next run of one of the
    jobs, not later than the next run of any.  It reads no clock and
    changes nothing. *)
Theorem next_run_is_earliest (s : Scheduler.t) (c : Clock) :
  Scheduler.jobs s <> [] ->
  Forall (fun j => Job.next_run j <> None) (Scheduler.jobs s) ->
  exists t,
    Scheduler.next_run s c = (Ok (Some t), s, c)
    /\ (exists j, j ∈ Scheduler.jobs s /\ Job.next_run j = Some t)
    /\ forall j t', j ∈ Scheduler.jobs s -> Job.next_run j = Some t' -> t <= t'.
Proof.
  intros Hne Hall.
  destruct (min_earliest _ Hne Hall) as (j & t & Hmin & Ht & Hin & Hle).
  exists t. split; [|split; [eauto | exact Hle]].
  unfold Scheduler.next_run. unfold_m.
  destruct (Scheduler.jobs s) as [|first rest] eqn:Hjobs; [congruence|].
  rewrite Hmin. now rewrite Ht.
Qed.

Lemma next_run_is_earliest_witness :
  exists t,
    Scheduler.next_run (Scheduler.mk [sample_job 1 7; sample_job 2 5; sample_job 3 9])
      (frozen 0)
    = (Ok (Some t), Scheduler.mk [sample_job 1 7; sample_job 2 5; sample_job 3 9],
       frozen 0).
Proof.
  destruct (next_run_is_earliest
              (Scheduler.mk [sample_job 1 7; sample_job 2 5; sample_job 3 9])
              (frozen 0)) as (t & H & _).
  - discriminate.
  - repeat constructor; discriminate.
  - exists t. exact H.
Defined.

(** X15.  Under the same conditions [idle_seconds] reads the clock once
    and returns a [timedelta]: the time from now to the earliest next run.
    It is zero or negative exactly when some job is due now. *)
Theorem idle_seconds_until_earliest (s : Scheduler.t) (c : Clock) :
  Scheduler.jobs s <> [] ->
  Forall (fun j => Job.next_run j <> None) (Scheduler.jobs s) ->
  exists d,
    Scheduler.idle_seconds s c = (Ok d, s, advance c)
    /\ (exists j, j ∈ Scheduler.jobs s /\ Job.next_run j = Some (read c + d))
    /\ (forall j t, j ∈ Scheduler.jobs s -> Job.next_run j = Some t ->
                    d <= t - read c)
    /\ (d <= 0 <->
        exists j t, j ∈ Scheduler.jobs s /\ Job.next_run j = Some t
                    /\ t <= read c).
Proof.
  intros Hne Hall.
  destruct (min_earliest _ Hne Hall) as (j & t & Hmin & Ht & Hin & Hle).
  exists (t - read c). split; [|split; [|split]].
  - unfold Scheduler.idle_seconds, Scheduler.next_run. unfold_m.
    destruct (Scheduler.jobs s) as [|first rest] eqn:Hjobs; [congruence|].
    rewrite Hmin. now rewrite Ht.
  - exists j. split; [exact Hin|]. rewrite Ht. f_equal. lia.
  - intros j0 t0 Hj0 Ht0. specialize (Hle j0 t0 Hj0 Ht0). lia.
  - split.
    + intros Hd. exists j, t. repeat split; try assumption. lia.
    + intros (j0 & t0 & Hj0 & Ht0 & Hdue).
      specialize (Hle j0 t0 Hj0 Ht0). lia.
Qed.

Lemma idle_seconds_until_earliest_witness :
  exists d,
    Scheduler.idle_seconds (Scheduler.mk [sample_job 1 7; sample_job 2 5])
      (frozen 6)
    = (Ok d, Scheduler.mk [sample_job 1 7; sample_job 2 5], advance (frozen 6)).
Proof.
  destruct (idle_seconds_until_earliest
              (Scheduler.mk [sample_job 1 7; sample_job 2 5]) (frozen 6))
    as (d & H & _).
  - discriminate.
  - repeat constructor; discriminate.
  - exists d. exact H.
Defined.

(** ** Scheduling a job *)

(** Scheduling a job without an anchor. *)
Lemma schedule_plain (self : Job.t) (c : Clock) (u : Unit) :
  Job.unit self = Some u -> Job.at_time self = None ->
  Datetime.valid (read c) ->
  Datetime.valid (read c + Job.interval self * unit_duration u) ->
  Job._schedule_next_run self c
  = (Ok tt,
     Job.set_next_run (Some (read c + Job.interval self * unit_duration u))
       (Job.set_period (Some (Job.interval self * unit_duration u)) self),
     advance c).
Proof.
  intros Hu Ha Hv Hs. unfold Job._schedule_next_run. unfold_m.
  rewrite Hu. rewrite (timedelta_valid u _ (read c)) by assumption.
  rewrite dt_add_valid by assumption. cbn. now rewrite Ha.
Qed.

Lemma should_run_at (self : Job.t) (c : Clock) (t : Z) :
  Job.next_run self = Some t ->
  Job.should_run self c = (Ok (t <=? read c), self, advance c).
Proof. intros Hn. unfold Job.should_run. unfold_m. now rewrite Hn. Qed.

(** X16.  [do] on a job with a unit and no anchor binds the action and
    sets the next run one period after now; from then on the job is due
    exactly at the readings that are not earlier than that instant. *)
Theorem do_makes_due_after_one_period
        (self : Job.t) (c : Clock) (u : Unit) (f : Action) :
  Job.unit self = Some u -> Job.at_time self = None ->
  Datetime.valid (read c) ->
  Datetime.valid (read c + Job.interval self * unit_duration u) ->
  exists self',
    Job.do f self c = (Ok tt, self', advance c)
    /\ Job.job_func self' = Some f
    /\ Job.period self' = Some (Job.interval self * unit_duration u)
    /\ forall c2,
        Job.should_run self' c2
        = (Ok (read c + Job.interval self * unit_duration u <=? read c2),
           self', advance c2).
Proof.
  intros Hu Ha Hv Hs. unfold Job.do. unfold bind at 1. unfold modify.
  rewrite (schedule_plain (Job.set_job_func (Some f) self) c u Hu Ha Hv Hs).
  eexists. split; [reflexivity|]. split; [reflexivity|].
  split; [reflexivity|].
  intros c2. now apply should_run_at.
Qed.

Lemma do_makes_due_after_one_period_witness :
  exists self',
    Job.do (returns 0) (Job.set_unit (Some Minutes) (Job.__init__ 5))
      (frozen eight_o_clock)
    = (Ok tt, self', advance (frozen eight_o_clock))
    /\ Job.should_run self' (frozen (eight_o_clock + 5 * Datetime.MINUTE - 1))
       = (Ok false, self',
          advance (frozen (eight_o_clock + 5 * Datetime.MINUTE - 1)))
    /\ Job.should_run self' (frozen (eight_o_clock + 5 * Datetime.MINUTE))
       = (Ok true, self', advance (frozen (eight_o_clock + 5 * Datetime.MINUTE))).
Proof.
  destruct (do_makes_due_after_one_period
              (Job.set_unit (Some Minutes) (Job.__init__ 5))
              (frozen eight_o_clock) Minutes (returns 0) eq_refl eq_refl)
    as (self' & Hdo & _ & _ & Hdue).
  - vm_compute. split; [discriminate | reflexivity].
  - vm_compute. split; [discriminate | reflexivity].
  - exists self'. split; [exact Hdo|]. split; apply Hdue.
Defined.

(** X17.  Nothing checks the interval.  With an interval of zero or less,
    [do] succeeds and sets a next run that is not later than now, and so
    does every run: the job is due at every later reading of a clock that
    does not go back, and every poll runs it again. *)
Theorem nonpositive_interval_is_always_due
        (self : Job.t) (u : Unit) :
  Job.interval self <= 0 ->
  Job.unit self = Some u -> Job.at_time self = None ->
  (forall c f,
      Datetime.valid (read c) ->
      Datetime.valid (read c + Job.interval self * unit_duration u) ->
      exists self',
        Job.do f self c = (Ok tt, self', advance c)
        /\ forall c2, read c <= read c2 ->
                      Job.should_run self' c2 = (Ok true, self', advance c2))
  /\ (forall c f v,
        Job.job_func self = Some f -> f (ticks c) = Returns v ->
        Datetime.valid (read (advance c)) ->
        Datetime.valid (read (advance c) + Job.interval self * unit_duration u) ->
        exists self',
          Job.run self c = (Ok v, self', advance (advance c))
          /\ forall c2, read (advance c) <= read c2 ->
                        Job.should_run self' c2 = (Ok true, self', advance c2)).
Proof.
  intros Hk Hu Ha. pose proof (unit_duration_pos u) as Hpos. split.
  - intros c f Hv Hs. unfold Job.do. unfold bind at 1. unfold modify.
    rewrite (schedule_plain (Job.set_job_func (Some f) self) c u Hu Ha Hv Hs).
    eexists. split; [reflexivity|]. intros c2 Hc2.
    erewrite should_run_at; [|reflexivity]. cbn [Job.set_job_func Job.interval].
    assert (H : (read c + Job.interval self * unit_duration u <=? read c2) = true)
      by (apply Z.leb_le; nia).
    now rewrite H.
  - intros c f v Hf Hv Hn Hs.
    rewrite (run_plain self c u f v Hu Ha Hf Hv Hn Hs).
    eexists. split; [reflexivity|]. intros c2 Hc2.
    erewrite should_run_at; [|reflexivity].
    assert (H : (read (advance c) + Job.interval self * unit_duration u
                 <=? read c2) = true)
      by (apply Z.leb_le; nia).
    now rewrite H.
Qed.

Lemma nonpositive_interval_is_always_due_witness :
  exists self',
    Job.do (returns 0) (Job.set_unit (Some Seconds) (Job.__init__ 0))
      (frozen eight_o_clock)
    = (Ok tt, self', advance (frozen eight_o_clock))
    /\ Job.should_run self' (frozen eight_o_clock)
       = (Ok true, self', advance (frozen eight_o_clock)).
Proof.
  destruct (proj1 (nonpositive_interval_is_always_due
                     (Job.set_unit (Some Seconds) (Job.__init__ 0)) Seconds
                     ltac:(cbn; lia) eq_refl eq_refl)
              (frozen eight_o_clock) (returns 0))
    as (self' & Hdo & Hdue).
  - vm_compute. split; [discriminate | reflexivity].
  - vm_compute. split; [discriminate | reflexivity].
  - exists self'. split; [exact Hdo|]. apply Hdue. lia.
Defined.

(** X18.  An interval too large for a [timedelta] makes [do] raise
    [OverflowError] before the clock is read; a period that leads past the
    last [datetime] makes it raise [OverflowError] after the period has
    been written.  Either way the action stays bound and the next run is
    as it was. *)
Theorem do_overflow (self : Job.t) (c : Clock) (u : Unit) (f : Action) :
  Job.unit self = Some u ->
  (Datetime.delta_validb (Job.interval self * unit_duration u) = false ->
   Job.do f self c = (Raise OverflowError, Job.set_job_func (Some f) self, c))
  /\ (Datetime.delta_validb (Job.interval self * unit_duration u) = true ->
      Datetime.validb (read c + Job.interval self * unit_duration u) = false ->
      Job.do f self c
      = (Raise OverflowError,
         Job.set_period (Some (Job.interval self * unit_duration u))
           (Job.set_job_func (Some f) self),
         advance c)).
Proof.
  intros Hu. split.
  - intros Hd. unfold Job.do, Job._schedule_next_run. unfold_m. cbn.
    rewrite Hu. unfold timedelta. now rewrite Hd.
  - intros Hd Hs. unfold Job.do, Job._schedule_next_run. unfold_m. cbn.
    rewrite Hu. unfold timedelta. rewrite Hd. cbn.
    unfold dt_add. now rewrite Hs.
Qed.

Lemma do_overflow_witness :
  Job.do (returns 0) (Job.set_unit (Some Days) (Job.__init__ 1000000000))
    (frozen eight_o_clock)
  = (Raise OverflowError,
     Job.set_job_func (Some (returns 0))
       (Job.set_unit (Some Days) (Job.__init__ 1000000000)),
     frozen eight_o_clock)
  /\ Job.do (returns 0) (Job.set_unit (Some Weeks) (Job.__init__ 1000000))
       (frozen eight_o_clock)
     = (Raise OverflowError,
        Job.set_period (Some (1000000 * Datetime.WEEK))
          (Job.set_job_func (Some (returns 0))
             (Job.set_unit (Some Weeks) (Job.__init__ 1000000))),
        advance (frozen eight_o_clock)).
Proof.
  split.
  - exact (proj1 (do_overflow (Job.set_unit (Some Days) (Job.__init__ 1000000000))
                    (frozen eight_o_clock) Days (returns 0) eq_refl) eq_refl).
  - exact (proj2 (do_overflow (Job.set_unit (Some Weeks) (Job.__init__ 1000000))
                    (frozen eight_o_clock) Weeks (returns 0) eq_refl)
             eq_refl eq_refl).
Defined.

(** ** Hourly jobs with an anchor *)

(** X19.  The first scheduling of an hourly job with an anchor, when the
    two readings of the clock give the same instant: the next run lies on
    the anchor minute, later than now and not later than one period after
    now. *)
Theorem hourly_anchor_first_run_window (self : Job.t) (c : Clock) (a : Time) :
  Job.unit self = Some Hours ->
  Job.at_time self = Some a ->
  Job.last_run self = None ->
  0 <= t_minute a <= 59 ->
  1 <= Job.interval self ->
  Datetime.valid (read c) ->
  Datetime.valid (read c + Job.interval self * Datetime.HOUR) ->
  read (advance c) = read c ->
  exists self' t,
    Job._schedule_next_run self c = (Ok tt, self', advance (advance c))
    /\ Job.next_run self' = Some t
    /\ on_anchor a t
    /\ read c < t <= read c + Job.interval self * Datetime.HOUR.
Proof.
  intros Hu Ha Hl Hm Hk Hv Hs Hsame. unfold Job._schedule_next_run. unfold_m.
  rewrite Hu. rewrite (timedelta_valid Hours _ (read c)) by assumption.
  cbn [unit_duration]. rewrite dt_add_valid by assumption.
  cbn. rewrite Ha. cbn. rewrite replace_anchor_minute by assumption.
  rewrite Hl. cbn. rewrite Hsame. rewrite hour_floor_add.
  pose proof (hour_floor_le (read c)) as Hf.
  assert (H0 : 0 <= Datetime.hour_floor (read c))
    by (unfold_time; Z.div_mod_to_equations; lia).
  destruct (Datetime.minute (read c) <? t_minute a) eqn:Hb.
  - apply Z.ltb_lt in Hb. rewrite dt_sub_valid.
    + eexists _, _. split; [reflexivity|]. cbn. split; [reflexivity|]. split.
      * replace (Datetime.hour_floor (read c) + Job.interval self * Datetime.HOUR
                 + t_minute a * Datetime.MINUTE - Datetime.HOUR)
          with (Datetime.hour_floor (read c + (Job.interval self - 1) * Datetime.HOUR)
                + t_minute a * Datetime.MINUTE)
          by (rewrite hour_floor_add; lia).
        now apply on_anchor_floor.
      * unfold_time. Z.div_mod_to_equations. lia.
    + unfold_time. lia.
  - apply Z.ltb_ge in Hb.
    eexists _, _. split; [reflexivity|]. cbn. split; [reflexivity|]. split.
    + rewrite <- hour_floor_add. now apply on_anchor_floor.
    + unfold_time. Z.div_mod_to_equations. lia.
Qed.

Lemma hourly_anchor_first_run_window_witness :
  exists self' t,
    Job._schedule_next_run hourly_at_half
      (frozen (eight_o_clock + 45 * Datetime.MINUTE))
    = (Ok tt, self', advance (advance (frozen (eight_o_clock + 45 * Datetime.MINUTE))))
    /\ Job.next_run self' = Some t
    /\ on_anchor (mkTime 0 30) t
    /\ read (frozen (eight_o_clock + 45 * Datetime.MINUTE)) < t
       <= read (frozen (eight_o_clock + 45 * Datetime.MINUTE))
          + Job.interval hourly_at_half * Datetime.HOUR.
Proof.
  apply (hourly_anchor_first_run_window hourly_at_half
           (frozen (eight_o_clock + 45 * Datetime.MINUTE)) (mkTime 0 30));
    [reflexivity | reflexivity | reflexivity | cbn; lia | cbn; lia | | | reflexivity].
  - vm_compute. split; [discriminate | reflexivity].
  - vm_compute. split; [discriminate | reflexivity].
Defined.

(** X20.  Once an hourly job with an anchor has run, there is no step
    back: the next run is the anchor minute of the hour that lies one
    period after now, which is more than one period less an hour and less
    than one period and an hour away from now. *)
Theorem hourly_anchor_later_runs
        (self : Job.t) (c : Clock) (a : Time) (lr : Z) :
  Job.unit self = Some Hours ->
  Job.at_time self = Some a ->
  Job.last_run self = Some lr ->
  0 <= t_minute a <= 59 ->
  Datetime.valid (read c) ->
  Datetime.valid (read c + Job.interval self * Datetime.HOUR) ->
  exists self' t,
    Job._schedule_next_run self c = (Ok tt, self', advance c)
    /\ Job.next_run self' = Some t
    /\ t = Datetime.hour_floor (read c + Job.interval self * Datetime.HOUR)
           + t_minute a * Datetime.MINUTE
    /\ read c + (Job.interval self - 1) * Datetime.HOUR < t
       < read c + (Job.interval self + 1) * Datetime.HOUR.
Proof.
  intros Hu Ha Hl Hm Hv Hs. unfold Job._schedule_next_run. unfold_m.
  rewrite Hu. rewrite (timedelta_valid Hours _ (read c)) by assumption.
  cbn [unit_duration]. rewrite dt_add_valid by assumption.
  cbn. rewrite Ha. cbn. rewrite replace_anchor_minute by assumption.
  rewrite Hl. cbn.
  eexists _, _. split; [reflexivity|]. cbn. split; [reflexivity|].
  split; [reflexivity|].
  rewrite hour_floor_add. pose proof (hour_floor_le (read c)) as Hf.
  unfold_time. lia.
Qed.

Lemma hourly_anchor_later_runs_witness :
  exists self' t,
    Job._schedule_next_run (Job.set_last_run (Some eight_o_clock) hourly_at_half)
      (frozen (eight_o_clock + 15 * Datetime.MINUTE))
    = (Ok tt, self', advance (frozen (eight_o_clock + 15 * Datetime.MINUTE)))
    /\ Job.next_run self' = Some t
    /\ t = eight_o_clock + 90 * Datetime.MINUTE.
Proof.
  destruct (hourly_anchor_later_runs
              (Job.set_last_run (Some eight_o_clock) hourly_at_half)
              (frozen (eight_o_clock + 15 * Datetime.MINUTE)) (mkTime 0 30)
              eight_o_clock eq_refl eq_refl eq_refl)
    as (self' & t & H1 & H2 & H3 & _).
  - cbn. lia.
  - vm_compute. split; [discriminate | reflexivity].
  - vm_compute. split; [discriminate | reflexivity].
  - exists self', t. split; [exact H1|]. split; [exact H2|].
    rewrite H3. vm_compute. reflexivity.
Defined.

(** ** Daily jobs with an anchor *)

(** X21.  [do] on a daily job with an anchor raises [TypeError], but
    leaves a job that looks finalized: the action is bound and the next
    run is one period after now.  When that job is run, its action is
    called and its last run written before the scheduling raises
    [TypeError] again. *)
Theorem daily_anchor_do_then_run
        (self : Job.t) (c : Clock) (a : Time) (f : Action) :
  Job.unit self = Some Days ->
  Job.at_time self = Some a ->
  Datetime.valid (read c) ->
  Datetime.valid (read c + Job.interval self * Datetime.DAY) ->
  let bound :=
    Job.set_next_run (Some (read c + Job.interval self * Datetime.DAY))
      (Job.set_period (Some (Job.interval self * Datetime.DAY))
         (Job.set_job_func (Some f) self)) in
  Job.do f self c = (Raise TypeError, bound, advance c)
  /\ forall c2 v,
      f (ticks c2) = Returns v ->
      Datetime.valid (read (advance c2)) ->
      Datetime.valid (read (advance c2) + Job.interval self * Datetime.DAY) ->
      Job.run bound c2
      = (Raise TypeError,
         Job.set_next_run
           (Some (read (advance c2) + Job.interval self * Datetime.DAY))
           (Job.set_period (Some (Job.interval self * Datetime.DAY))
              (Job.set_last_run (Some (read c2)) bound)),
         advance (advance c2)).
Proof.
  intros Hu Ha Hv Hs bound.
  assert (Hsched : forall j c0,
    Job.unit j = Some Days -> Job.at_time j = Some a ->
    Job.interval j = Job.interval self ->
    Datetime.valid (read c0) ->
    Datetime.valid (read c0 + Job.interval self * Datetime.DAY) ->
    Job._schedule_next_run j c0
    = (Raise TypeError,
       Job.set_next_run (Some (read c0 + Job.interval self * Datetime.DAY))
         (Job.set_period (Some (Job.interval self * Datetime.DAY)) j),
       advance c0)).
  { intros j c0 Hu0 Ha0 Hi0 Hv0 Hs0. unfold Job._schedule_next_run. unfold_m.
    rewrite Hu0, Hi0. rewrite (timedelta_valid Days _ (read c0)) by assumption.
    cbn [unit_duration]. rewrite dt_add_valid by assumption.
    cbn. rewrite Ha0. reflexivity. }
  split.
  - unfold Job.do. unfold bind at 1. unfold modify.
    now rewrite (Hsched (Job.set_job_func (Some f) self) c Hu Ha eq_refl Hv Hs).
  - intros c2 v Hf Hv2 Hs2.
    rewrite (run_action_returns bound c2 f v eq_refl Hf).
    now rewrite (Hsched (Job.set_last_run (Some (read c2)) bound) (advance c2)
                   Hu Ha eq_refl Hv2 Hs2).
Qed.

Lemma daily_anchor_do_then_run_witness :
  Job.do (returns 0) daily_at_nine (frozen eight_o_clock)
  = (Raise TypeError,
     Job.set_next_run (Some (eight_o_clock + 1 * Datetime.DAY))
       (Job.set_period (Some (1 * Datetime.DAY))
          (Job.set_job_func (Some (returns 0)) daily_at_nine)),
     advance (frozen eight_o_clock)).
Proof.
  refine (proj1 (daily_anchor_do_then_run daily_at_nine (frozen eight_o_clock)
                   (mkTime 9 0) (returns 0) eq_refl eq_refl _ _));
    vm_compute; (split; [discriminate | reflexivity]).
Defined.

(** ** Polling twice at the same instant *)

Lemma run_returns_plain (j j' : Job.t) (c c' : Clock) (v : Z) :
  Job.run j c = (Ok v, j', c') ->
  Job.at_time j = None ->
  exists u,
    Job.unit j = Some u
    /\ Job.next_run j'
       = Some (read (advance c) + Job.interval j * unit_duration u).
Proof.
  intros H Ha. destruct (Job.job_func j) as [f|] eqn:Hf.
  - destruct (f (ticks c)) as [w|e] eqn:Hw.
    + rewrite (run_action_returns j c f w Hf Hw) in H.
      unfold Job._schedule_next_run in H. unfold_m. cbn in H.
      destruct (Job.unit j) as [u|]; [|discriminate].
      unfold timedelta, dt_add in H.
      destruct (Datetime.delta_validb _); [|discriminate]. cbn in H.
      destruct (Datetime.validb _); [|discriminate]. cbn in H.
      rewrite Ha in H. injection H as <- <- <-. now exists u.
    + rewrite (run_action_throws j c f e Hf Hw) in H. discriminate.
  - unfold Job.run, Job.call in H. unfold_m. rewrite Hf in H. discriminate.
Qed.

Lemma all_jobs_none_due (js : list Job.t) :
  forall i s c,
    (forall k j, js !! k = Some j -> Scheduler.jobs s !! (i + k)%nat = Some j) ->
    (forall k j, js !! k = Some j ->
                 exists t, Job.next_run j = Some t
                           /\ readings c (ticks c + k)%nat < t) ->
    Scheduler.all_jobs i js s c
    = (Ok [], s, mkClock (readings c) (ticks c + length js)).
Proof.
  induction js as [|j js IH]; intros i s c Hjs Hlate.
  - cbn. unfold ret. do 2 f_equal. destruct c as [rd tk]. cbn. f_equal. lia.
  - cbn [Scheduler.all_jobs]. unfold bind at 1.
    assert (Hj : Scheduler.jobs s !! i = Some j).
    { rewrite <- (Nat.add_0_r i). now apply Hjs. }
    rewrite (on_job_should_run _ _ _ _ Hj).
    destruct (Hlate 0%nat j eq_refl) as (t & Hn & Ht).
    rewrite Nat.add_0_r in Ht. rewrite Hn.
    assert (Hb : (t <=? read c) = false) by (apply Z.leb_gt; exact Ht).
    rewrite Hb. unfold bind at 1. rewrite IH.
    + unfold ret. do 2 f_equal. unfold advance; cbn. f_equal. lia.
    + intros k j0 Hk. replace (S i + k)%nat with (i + S k)%nat by lia.
      now apply Hjs.
    + intros k j0 Hk. destruct (Hlate (S k) j0 Hk) as (t0 & Hn0 & Ht0).
      exists t0. split; [exact Hn0|].
      assert (E : (ticks (advance c) + k = ticks c + S k)%nat)
        by (unfold advance; cbn; lia).
      now rewrite E.
Qed.

(** X22.  No job runs twice at the same instant.  Under a stopped clock,
    with jobs that have no anchor and intervals of 1 or more: after a poll
    that has returned, every job has its next run after now, and a second
    [run_pending] checks every job, runs none, and changes nothing. *)
Theorem poll_again_runs_nothing
        (s s' : Scheduler.t) (c c' : Clock) (now : Z) :
  (forall n, readings c n = now) ->
  (forall j, j ∈ Scheduler.jobs s ->
             Job.at_time j = None /\ 1 <= Job.interval j) ->
  Scheduler.run_pending s c = (Ok tt, s', c') ->
  (forall j', j' ∈ Scheduler.jobs s' ->
              exists t', Job.next_run j' = Some t' /\ now < t')
  /\ Scheduler.run_pending s' c'
     = (Ok tt, s',
        mkClock (readings c') (ticks c' + length (Scheduler.jobs s'))).
Proof.
  intros Hnow Hplain H.
  assert (Hreadings : readings c' = readings c).
  { assert (Hs : steady Scheduler.run_pending).
    { unfold Scheduler.run_pending.
      apply steady_bind; [apply steady_pending | intros order].
      apply steady_for_each. intros i. apply steady_run_then, steady_ret. }
    exact (proj1 (Hs _ _ _ _ _ H)). }
  assert (Hlater : forall k j', Scheduler.jobs s' !! k = Some j' ->
                     exists t', Job.next_run j' = Some t' /\ now < t').
  { intros k j' Hj'.
    pose proof (keeps_run_pending _ _ _ _ _ H) as HR.
    destruct (Forall2_lookup_r _ _ _ _ _ HR Hj') as (j & Hj & _).
    assert (Hin : j ∈ Scheduler.jobs s) by (apply list_elem_of_lookup; eauto).
    destruct (Hplain j Hin) as [Ha Hk].
    pose proof H as H0. unfold Scheduler.run_pending in H0.
    unfold bind at 1 in H0.
    destruct (Scheduler.pending s c) as [[[order|e] s1] c1] eqn:Ep;
      [|discriminate].
    pose proof (pending_inv _ _ _ _ _ Ep) as (-> & _ & _ & Hsome & _).
    rewrite Forall_forall in Hsome.
    destruct (Job.next_run j) as [t|] eqn:Hn; [|now destruct (Hsome j Hin)].
    destruct (Z_le_gt_dec t now) as [Hdue|Hlate].
    - destruct (run_pending_reaches s s' c c' k j t H Hj Hn)
        as (j1 & c2 & c3 & v & Hj1 & Hrun & Hr & _); [now rewrite Hnow|].
      assert (j1 = j') by congruence. subst j1.
      destruct (run_returns_plain j j' c2 c3 v Hrun Ha) as (u & _ & Hn').
      eexists. split; [exact Hn'|].
      pose proof (unit_duration_pos u) as Hpos.
      unfold read, advance; cbn. rewrite Hr, Hnow. nia.
    - assert (Hk0 : k ∉ map fst order).
      { apply (not_selected s c c1 order k j t Ep Hj Hn). rewrite Hnow. lia. }
      rewrite (for_each_frame (ret tt) ret_pure _ _ _ _ _ _ k H0 Hk0) in Hj'.
      assert (j' = j) by congruence. subst j'.
      exists t. split; [exact Hn | lia]. }
  split.
  - intros j' Hin. apply list_elem_of_lookup in Hin as [k Hk]. eauto.
  - unfold Scheduler.run_pending, Scheduler.pending. unfold bind at 1 2 3.
    unfold get. rewrite (all_jobs_none_due (Scheduler.jobs s') 0 s' c').
    + reflexivity.
    + intros k j Hk. exact Hk.
    + intros k j Hk. destruct (Hlater k j Hk) as (t' & Hn' & Hlt).
      exists t'. split; [exact Hn'|]. now rewrite Hreadings, Hnow.
Qed.

Lemma poll_again_runs_nothing_witness :
  exists s' c',
    Scheduler.run_pending (Scheduler.mk [sample_job 1 5; sample_job 2 20])
      (frozen 10) = (Ok tt, s', c')
    /\ Scheduler.run_pending s' c'
       = (Ok tt, s', mkClock (readings c') (ticks c' + length (Scheduler.jobs s'))).
Proof.
  eexists _, _. split; [reflexivity|].
  refine (proj2 (poll_again_runs_nothing
                   (Scheduler.mk [sample_job 1 5; sample_job 2 20]) _
                   (frozen 10) _ 10 _ _ eq_refl)).
  - reflexivity.
  - intros j Hj. apply list_elem_of_In in Hj.
    destruct Hj as [<-|[<-|[]]]; (split; [reflexivity | cbn; lia]).
Defined.
